(** * Music-Theory-Scale-Drop: notes, clefs, key signatures and scales

    A shallow embedding of the note and scale engine of the game
    (scale.py, useful.py, settings.py and the answer check of main.py),
    followed by the properties of it that the specification states.

    Conventions of the embedding.
    - Python [int] is [Z].
    - Text that the program reads or assembles from note names (note strings,
      scale patterns, names of clefs and scale types) is a Stdlib [string]:
      characters with code points 0..255.  Among these the only characters
      that Python's [int] accepts as a one-character number are "0".."9".
    - Strings of Game Font glyphs hold code points in the private use area
      (0xE000 and up); they are lists of code points, [ustr].
    - A Python [set] of strings is a [gset string].
    - A raised exception is the [Raise] case of [result]; the message is the
      one the source builds. *)

From Stdlib Require Import ZArith Ascii String DecimalString Lia.
From stdpp Require Import base list gmap strings sorting.

Local Open Scope Z_scope.

(** ** Exceptions and results *)

Inductive exn : Type :=
| IndexError                      (* built-in: indexing or choosing from an empty sequence *)
| ValueError (msg : string)
| KeyError (msg : string)
| Exception (msg : string).

Inductive result (A : Type) : Type :=
| Ok (a : A)
| Raise (e : exn).
Arguments Ok {A} a.
Arguments Raise {A} e.

Global Instance result_ret : MRet result := fun A a => Ok a.
Global Instance result_bind : MBind result := fun A B f m =>
  match m with
  | Ok a => f a
  | Raise e => Raise e
  end.

(** The class name of an exception and its message. *)
Definition exn_class (e : exn) : string :=
  match e with
  | IndexError => "IndexError"
  | ValueError _ => "ValueError"
  | KeyError _ => "KeyError"
  | Exception _ => "Exception"
  end.

Definition exn_message (e : exn) : string :=
  match e with
  | IndexError => ""
  | ValueError m | KeyError m | Exception m => m
  end.

(** The source names its own errors in the message, as in
    [Exception(f"InvalidNoteLetterError: {note[0]}")].  An exception is
    called [name] when that is its class or the tag that opens its message. *)
Definition exn_named (name : string) (e : exn) : bool :=
  bool_decide (exn_class e = name) || String.prefix (name +:+ ":") (exn_message e).

Definition raises {A} (name : string) (r : result A) : Prop :=
  match r with
  | Ok _ => False
  | Raise e => exn_named name e = true
  end.

(** ** Python built-ins on characters, strings and lists *)

Definition ord (c : ascii) : Z := Z.of_N (N_of_ascii c).

(** [chr] for arguments in 0..255, the only ones it gets on the text side. *)
Definition chr_latin1 (z : Z) : ascii := ascii_of_N (Z.to_N z).

(** [str(i)] and [f"{i}"] for an int. *)
Definition str_of_int (z : Z) : string := NilZero.string_of_int (Z.to_int z).

(** [int(c)] for a one-character string: [None] stands for ValueError. *)
Definition int_of_char (c : ascii) : option Z :=
  if (ord "0" <=? ord c) && (ord c <=? ord "9") then Some (ord c - ord "0") else None.

Definition chars (s : string) : list ascii := list_ascii_of_string s.
Definition of_chars (l : list ascii) : string := string_of_list_ascii l.

(** [s * n] for a string [s] and an int [n]: empty when [n <= 0]. *)
Definition str_mul (s : string) (n : Z) : string :=
  of_chars (mjoin (replicate (Z.to_nat n) (chars s))).

(** A slice bound [i] of a sequence of length [len], as Python clamps it. *)
Definition slice_bound (len i : Z) : Z :=
  if i <? 0 then Z.max 0 (i + len) else Z.min i len.

(** [l[lo:hi]] *)
Definition slice {A} (lo hi : Z) (l : list A) : list A :=
  let len := Z.of_nat (length l) in
  let a := slice_bound len lo in
  let b := slice_bound len hi in
  take (Z.to_nat (b - a)) (drop (Z.to_nat a) l).

(** [l[lo:]] and [l[:hi]] *)
Definition slice_from {A} (lo : Z) (l : list A) : list A :=
  slice lo (Z.of_nat (length l)) l.
Definition slice_to {A} (hi : Z) (l : list A) : list A :=
  slice 0 hi l.

(** [l[i]]: negative indices count from the end, IndexError out of range. *)
Definition index {A} (l : list A) (i : Z) : result A :=
  let len := Z.of_nat (length l) in
  let j := if i <? 0 then i + len else i in
  if (0 <=? j) && (j <? len) then
    match l !! Z.to_nat j with
    | Some x => Ok x
    | None => Raise IndexError
    end
  else Raise IndexError.

(** ** useful.py *)

(** [pm_bool]: [b * 2 - 1] with the bool read as 0 or 1. *)
Definition pm_bool (b : bool) : Z := (if b then 1 else 0) * 2 - 1.

Definition int_from_pattern (pattern_char : ascii) : Z :=
  match pattern_char with
  | "H"%char => 1
  | "W"%char => 2
  | "3"%char => 3
  | _ => 0
  end.

Definition sum (l : list Z) : Z := foldr Z.add 0 l.

Definition ensure_octave (pattern : list Z) : bool := sum pattern =? 12.

Definition get_next_letter (letter : ascii) : ascii :=
  let num := ord letter - ord "A" + 1 in
  let num := num mod 7 in
  chr_latin1 (num + ord "A").

(** [cmp(a, b)] is [(a > b) - (a < b)]. *)
Definition cmp_int (a b : Z) : Z :=
  (if b <? a then 1 else 0) - (if a <? b then 1 else 0).
Definition cmp_str (a b : string) : Z :=
  (if String.ltb b a then 1 else 0) - (if String.ltb a b then 1 else 0).

(** [random.choice(list(iterable))]: [pick] is the number the random source
    yields; an empty sequence raises IndexError. *)
Definition choice {A} (pick : nat) (l : list A) : result A :=
  match l with
  | [] => Raise IndexError
  | _ => index l (Z.of_nat (pick mod length l)%nat)
  end.

(** ** scale.py: constants *)

Definition SHARP : string := "#".
Definition FLAT : string := "b".

Definition ORDER_OF_SHARPS : string := "FCGDAEB".
Definition LETTERS_PER_OCTAVE : Z := Z.of_nat (String.length ORDER_OF_SHARPS).

Definition STAFF_LINES : Z := 5.
Definition STAFF_SPACES : Z := 4.
Definition LEDGER_LINES : Z := 4.
Definition TOTAL_NOTES : Z := STAFF_LINES + STAFF_SPACES + 2 * LEDGER_LINES.

Definition NOTES_START : Z := 0xE000.
Definition FLATS_START : Z := 0xE020.
Definition NATURALS_START : Z := 0xE040.
Definition SHARPS_START : Z := 0xE060.

(** ** scale.py: Note *)

Record Note : Type := mkNote {
  letter : ascii;
  sharp_flat : string;
  octave : Z
}.

(** The loop of the constructor over [note[1:-1]]. *)
Definition count_accidentals (middle : list ascii) : Z :=
  foldl (fun sharps_flats accidental =>
           if bool_decide (accidental = "#"%char) then sharps_flats + 1
           else if bool_decide (accidental = "b"%char) then sharps_flats - 1
           else sharps_flats) 0 middle.

(** [SHARP*n + FLAT*-n] *)
Definition accidental_string (n : Z) : string :=
  str_mul SHARP n +:+ str_mul FLAT (- n).

(** [Note.__init__] *)
Definition Note_init (note : string) : result Note :=
  first ← index (chars note) 0;
  letter ←
    (if (ord "A" <=? ord first) && (ord first <=? ord "G") then Ok first
     else Raise (Exception ("InvalidNoteLetterError: " +:+ String first "")));
  last ← index (chars note) (-1);
  octave ←
    match int_of_char last with
    | Some d => Ok d
    | None => Raise (Exception ("InvalidOctaveError: " +:+ String last ""))
    end;
  let sharps_flats := count_accidentals (slice 1 (-1) (chars note)) in
  Ok (mkNote letter (accidental_string sharps_flats) octave).

(** [Note.__str__] *)
Definition Note_str (self : Note) : string :=
  String (letter self) (sharp_flat self) +:+ " " +:+ str_of_int (octave self).

(** [Note.get_sharp_flat] *)
Definition get_sharp_flat (self : Note) : Z :=
  match sharp_flat self with
  | EmptyString => 0
  | String c _ =>
      Z.of_nat (String.length (sharp_flat self)) * pm_bool (bool_decide (String c "" = SHARP))
  end.

(** [Note.up_by] *)
Definition up_by (self : Note) (half_steps scale_length : Z) : result Note :=
  if negb ((1 <=? half_steps) && (half_steps <=? 3)) then
    Raise (ValueError ("BadSizedScaleJumpError: " +:+ str_of_int half_steps))
  else
    let temp_letter := letter self in
    let temp_sharp_flat_num := get_sharp_flat self + half_steps in
    let temp_octave := octave self in
    let '(temp_letter, temp_sharp_flat_num, temp_octave) :=
      match scale_length with
      | 5 => (temp_letter, temp_sharp_flat_num, temp_octave)    (* Pentatonic *)
      | 6 => (temp_letter, temp_sharp_flat_num, temp_octave)    (* Whole Tone *)
      | 7 =>                                                    (* Most western scales *)
          (get_next_letter (letter self),
           temp_sharp_flat_num -
             (if bool_decide (letter self ∈ ["B"%char; "E"%char]) then 1 else 2),
           temp_octave + (if bool_decide (letter self = "B"%char) then 1 else 0))
      | 8 => (temp_letter, temp_sharp_flat_num, temp_octave)
      | 12 => (temp_letter, temp_sharp_flat_num, temp_octave)   (* Chromatic *)
      | _ => (temp_letter, temp_sharp_flat_num, temp_octave)
      end in
    let temp_sharp_flat := accidental_string temp_sharp_flat_num in
    Note_init (String temp_letter temp_sharp_flat +:+ str_of_int temp_octave).


(** ** Game Font strings *)

(** A string of glyphs: its code points. *)
Definition ustr : Type := list Z.

(** [chr(i)]: ValueError outside the Unicode range. *)
Definition chr (i : Z) : result Z :=
  if (0 <=? i) && (i <? 0x110000) then Ok i
  else Raise (ValueError "chr() arg not in range(0x110000)").

(** A text string read as a string of code points. *)
Definition ustr_of (s : string) : ustr := ord <$> chars s.

(** ** scale.py: ScaleInfo *)

Record ScaleInfo : Type := mkScaleInfo {
  name : string;
  pattern : string;
  possible_starts_octaveless : list string;
  possible_starts : gset string
}.

(** [range(n)] *)
Definition range (n : nat) : list Z := Z.of_nat <$> seq 0 n.

(** [ScaleInfo.__post_init__]: both loops, adding to [possible_starts]. *)
Definition ScaleInfo_post_init (self : ScaleInfo) : ScaleInfo :=
  mkScaleInfo (name self) (pattern self) (possible_starts_octaveless self)
    (foldl (fun starts possible_start =>
              foldl (fun starts octave =>
                       starts ∪ {[ possible_start +:+ str_of_int octave ]})
                    starts (range 9))
           (possible_starts self) (possible_starts_octaveless self)).

(** [ScaleInfo(name, pattern, possible_starts_octaveless)] *)
Definition ScaleInfo_new (name pattern : string) (octaveless : list string) : ScaleInfo :=
  ScaleInfo_post_init (mkScaleInfo name pattern octaveless ∅).

(** [SCALE_TYPE_INFO.items()], in the order of the dictionary. *)
Definition SCALE_TYPE_INFO_items : list (string * ScaleInfo) :=
  [ ("q", ScaleInfo_new "Major" "WWHWWWH"
       ["Cb"; "Gb"; "Db"; "Ab"; "Eb"; "Bb"; "F";
        "C"; "G"; "D"; "A"; "E"; "B"; "F#"; "C#"]);
    ("w", ScaleInfo_new "Natural Minor" "WHWWHWW"
       ["Ab"; "Eb"; "Bb"; "F"; "C"; "G"; "D";
        "A"; "E"; "B"; "F#"; "C#"; "G#"; "D#"; "A#"]);
    ("e", ScaleInfo_new "Harmonic Minor" "WHWWH3H"
       ["Ab"; "Eb"; "Bb"; "F"; "C"; "G"; "D";
        "A"; "E"; "B"; "F#"; "C#"; "G#"; "D#"; "A#"]);
    ("r", ScaleInfo_new "Melodic Minor" "WHWWWWH"
       ["Ab"; "Eb"; "Bb"; "F"; "C"; "G"; "D";
        "A"; "E"; "B"; "F#"; "C#"; "G#"; "D#"; "A#"]);
    ("1", ScaleInfo_new "Ionian" "WWHWWWH"
       ["Cb"; "Gb"; "Db"; "Ab"; "Eb"; "Bb"; "F";
        "C"; "G"; "D"; "A"; "E"; "B"; "F#"; "C#"]);
    ("2", ScaleInfo_new "Dorian" "WHWWWHW"
       ["Db"; "Ab"; "Eb"; "Bb"; "F"; "C"; "G";
        "D"; "A"; "E"; "B"; "F#"; "C#"; "G#"; "D#"]);
    ("3", ScaleInfo_new "Phrygian" "HWWWHWW"
       ["Eb"; "Bb"; "F"; "C"; "G"; "D"; "A";
        "E"; "B"; "F#"; "C#"; "G#"; "D#"; "A#"; "E#"]);
    ("4", ScaleInfo_new "Lydian" "WWWHWWH"
       ["Fb"; "Cb"; "Gb"; "Db"; "Ab"; "Eb"; "Bb";
        "F"; "C"; "G"; "D"; "A"; "E"; "B"; "F#"]);
    ("5", ScaleInfo_new "Mixolydian" "WWHWWHW"
       ["Gb"; "Db"; "Ab"; "Eb"; "Bb"; "F"; "C";
        "G"; "D"; "A"; "E"; "B"; "F#"; "C#"; "G#"]);
    ("6", ScaleInfo_new "Aeolian" "WHWWHWW"
       ["Ab"; "Eb"; "Bb"; "F"; "C"; "G"; "D";
        "A"; "E"; "B"; "F#"; "C#"; "G#"; "D#"; "A#"]);
    ("7", ScaleInfo_new "Lochrian" "HWWHWWW"
       ["Bb"; "F"; "C"; "G"; "D"; "A"; "E";
        "B"; "F#"; "C#"; "G#"; "D#"; "A#"; "E#"; "B#"]) ].

Definition SCALE_TYPE_INFO : gmap string ScaleInfo :=
  list_to_map SCALE_TYPE_INFO_items.

(** [{scale_info.name: key for key, scale_info in SCALE_TYPE_INFO.items()}];
    a later item overwrites an earlier one of the same name. *)
Definition SCALE_TYPE_KEYS : gmap string string :=
  foldl (fun keys item => <[ name item.2 := item.1 ]> keys) ∅ SCALE_TYPE_INFO_items.

(** ** scale.py: KeySignature and Clef *)

Record KeySignature : Type := mkKeySignature {
  sharps_flats : Z
}.

(** [KeySignature()] *)
Definition KeySignature_default : KeySignature := mkKeySignature 0.

Record Clef : Type := mkClef {
  clef_name : string;
  symbol : Z;                     (* the code point of the clef's glyph *)
  lowest_note : Note;             (* Note number 1, not 0 *)
  sharps_pattern : list bool;
  flats_pattern : list bool
}.

(** settings.py: [Settings] *)
Record Settings : Type := mkSettings {
  scale_types : list string;
  clefs : list string;
  max_sharps_key_signature : Z;
  max_flats_key_signature : Z;
  max_high_ledger_positions : Z;
  max_low_ledger_positions : Z
}.

(** settings.py: [DEFAULT_CONFIG] *)
Definition DEFAULT_CONFIG : Settings :=
  mkSettings ["Major"; "Natural Minor"; "Harmonic Minor"; "Melodic Minor"]
    ["Treble"; "Bass"] 4 4 4 4.

(** [Settings.validate_ledger_lines] *)
Definition validate_ledger_lines (self : Settings) : Settings :=
  let low := Z.min (max_low_ledger_positions self) LEDGER_LINES in
  let high := Z.min (max_high_ledger_positions self) LEDGER_LINES in
  let low := Z.max low 0 in
  let high := Z.max high 0 in
  mkSettings (scale_types self) (clefs self)
    (max_sharps_key_signature self) (max_flats_key_signature self) high low.

(** Modelled from the spec: the world of the game, of module [world], which
    is not among the sources.  [Scale] and [Clef] read [world.settings] only,
    the Settings of settings.py ("the engine never mutates these"). *)
Record World : Type := mkWorld {
  settings : Settings
}.

(** [KeySignature.__contains__]: the letter is one character, so that [in]
    on the slice of ORDER_OF_SHARPS is membership. *)
Definition KeySignature_contains (self : KeySignature) (note : Note) : bool :=
  if sharps_flats self <? 0 then
    bool_decide (letter note ∈ slice_from (sharps_flats self) (chars ORDER_OF_SHARPS))
  else
    bool_decide (letter note ∈ slice_to (sharps_flats self) (chars ORDER_OF_SHARPS)).

(** [KeySignature.__rxor__], which [note ^ key_signature] calls. *)
Definition KeySignature_rxor (self : KeySignature) (note : Note) : result bool :=
  if negb (KeySignature_contains self note) then
    Raise (KeyError ("NoteNotEffectedByKeySignatureError: " +:+
                     "Note: " +:+ Note_str note +:+
                     ", KeySignature: " +:+ str_of_int (sharps_flats self)))
  else
    Ok (negb (- cmp_str (sharp_flat note +:+ "A") "A" =? cmp_int (sharps_flats self) 0)).

(** 0 or 1 for a Python bool in arithmetic. *)
Definition int_of_bool (b : bool) : Z := if b then 1 else 0.

(** [Note.font_offset_number] *)
Definition font_offset_number (self : Note) (clef : Clef) : Z :=
  let octave_diff := octave self - octave (lowest_note clef) in
  (* Deal with the fact that octaves change at C, not at A *)
  let octave_diff :=
    octave_diff + (int_of_bool (ord (letter self) <? ord "C")
                   - int_of_bool (ord (letter (lowest_note clef)) <? ord "C")) in
  (* +1, because the lowest_note is number 1, not 0 *)
  let note_diff := ord (letter self) - ord (letter (lowest_note clef)) + 1 in
  octave_diff * LETTERS_PER_OCTAVE + note_diff.

Definition ACCIDENTALS_START : gmap string Z :=
  <[ FLAT := FLATS_START ]> (<[ SHARP := SHARPS_START ]> ∅).

(** [Note.accidentals_symbols] *)
Definition accidentals_symbols (self : Note) (clef : Clef) (with_natural : bool)
  : result ustr :=
  match sharp_flat self with
  | EmptyString =>
      if negb with_natural then Ok []
      else g ← chr (NATURALS_START + font_offset_number self clef); Ok [g]
  | String accidental _ =>
      start ← match ACCIDENTALS_START !! String accidental "" with
              | Some start => Ok start
              | None => Raise (KeyError (String accidental ""))
              end;
      let char_ind := start + font_offset_number self clef in
      g ← chr char_ind;
      (* replace every [accidental] of [sharp_flat] by the glyph *)
      Ok ((fun c => if bool_decide (c = accidental) then g else ord c)
            <$> chars (sharp_flat self))
  end.

(** [Note.string_form] *)
Definition string_form (self : Note) (clef : option Clef)
    (key_signature : KeySignature) (with_octave : bool) : result ustr :=
  match clef with
  | Some clef =>
      accidental ←
        (if KeySignature_contains key_signature self then
           mismatch ← KeySignature_rxor key_signature self;
           if (mismatch : bool) then accidentals_symbols self clef true else Ok []
         else accidentals_symbols self clef false);
      note_on_staff ← chr (NOTES_START + font_offset_number self clef);
      Ok (accidental ++ [note_on_staff])
  | None =>
      let ret := chars (Note_str self) in
      if negb with_octave then Ok (ustr_of (of_chars (slice_to (-2) ret)))
      else Ok (ustr_of (of_chars ret))
  end.

(** The body of the loop of [Clef.all_notes], run [n] times. *)
Fixpoint all_notes_loop (n : nat) (all_notes : list string)
    (letter_now : ascii) (octave_now : Z) : list string :=
  match n with
  | O => all_notes
  | S n =>
      (* [letter_now] * 3, with FLAT added to the first and SHARP to the last *)
      let temp_notes := [String letter_now "" +:+ FLAT; String letter_now "";
                         String letter_now "" +:+ SHARP] in
      let temp_notes := (fun note => note +:+ str_of_int octave_now) <$> temp_notes in
      let all_notes := all_notes ++ temp_notes in
      let letter_now := get_next_letter letter_now in
      let octave_now :=
        if bool_decide (letter_now = "C"%char) then octave_now + 1 else octave_now in
      all_notes_loop n all_notes letter_now octave_now
  end.

(** The list that [Clef.all_notes] builds and its slice, before [set(...)]. *)
Definition all_notes_list (self : Clef) (world : World) : list string :=
  let all_notes :=
    all_notes_loop (Z.to_nat (TOTAL_NOTES - LETTERS_PER_OCTAVE)) []
      (letter (lowest_note self)) (octave (lowest_note self)) in
  slice (3 * (LEDGER_LINES - max_low_ledger_positions (settings world)))
        (Z.of_nat (length all_notes)
         - 3 * (LEDGER_LINES - max_high_ledger_positions (settings world)))
        all_notes.

(** [Clef.all_notes] *)
Definition all_notes (self : Clef) (world : World) : gset string :=
  list_to_set (all_notes_list self world).

(** [CLEFS.items()]; each lowest note is what [Note(...)] makes of the string
    in the source (lemma [CLEFS_lowest_notes]). *)
Definition CLEFS_items : list (string * Clef) :=
  [ ("Bass", mkClef "Bass" 0xE0A9 (mkNote "C" "" 2)
       [false; true; false; false; true; false]
       [false; true; false; true; false; true]);
    ("Treble", mkClef "Treble" 0xE0AE (mkNote "A" "" 3)
       [false; true; false; false; true; false]
       [false; true; false; true; false; true]);
    ("Baritone", mkClef "Baritone" 0xE0AB (mkNote "E" "" 2)
       [true; false; true; false; false; true]
       [true; false; true; false; true; false]);
    ("Tenor", mkClef "Tenor" 0xE0AD (mkNote "G" "" 2)
       [true; false; true; false; true; false]
       [false; true; false; true; false; true]);
    ("Alto", mkClef "Alto" 0xE0AF (mkNote "B" "" 2)
       [false; true; false; false; true; false]
       [false; true; false; true; false; true]);
    ("Mezzo-Soprano", mkClef "Mezzo-Soprano" 0xE0AA (mkNote "D" "" 3)
       [false; true; false; true; false; true]
       [true; false; true; false; true; false]);
    ("Soprano", mkClef "Soprano" 0xE0AC (mkNote "F" "" 3)
       [true; false; true; false; true; false]
       [true; false; true; false; true; false]) ].

Definition CLEFS : gmap string Clef := list_to_map CLEFS_items.

(** ** scale.py: Scale *)

(** Computations that draw from the random source and may raise: the state is
    the sequence of numbers the source will yield. *)
Definition Gen (A : Type) : Type := list nat → result (A * list nat).

Global Instance gen_ret : MRet Gen := fun A a tape => Ok (a, tape).
Global Instance gen_bind : MBind Gen := fun A B f m tape =>
  match m tape with
  | Ok (a, tape) => f a tape
  | Raise e => Raise e
  end.

Definition lift {A} (r : result A) : Gen A := fun tape =>
  match r with
  | Ok a => Ok (a, tape)
  | Raise e => Raise e
  end.

(** [choice(iterable)] on the next number of the random source; a source
    that has run out yields 0. *)
Definition choice_gen {A} (l : list A) : Gen A := fun tape =>
  match tape with
  | [] => lift (choice 0 l) []
  | pick :: tape => lift (choice pick l) tape
  end.

(** [d[key]] for a dictionary. *)
Definition getitem {V} (d : gmap string V) (key : string) : result V :=
  match d !! key with
  | Some v => Ok v
  | None => Raise (KeyError key)
  end.

(** The fields of a Scale that the constructor computes.  The three objects
    that draw it (background, display, blur) belong to the graphics library,
    and the field key_signature is declared and never assigned. *)
Record Scale : Type := mkScale {
  scale_pattern : list Z;
  starts_on : Note;
  scale_clef : Clef
}.

(** [Scale.__init__], the block [if scale_type is None: ...] *)
Definition choose_scale_type (world : World) (scale_type : option ScaleInfo)
  : Gen ScaleInfo :=
  match scale_type with
  | None =>
      let possible_scale_types : gset string :=
        list_to_set (scale_types (settings world)) ∩ dom SCALE_TYPE_KEYS in
      chosen ← choice_gen (elements possible_scale_types);
      scale_name ← lift (getitem SCALE_TYPE_KEYS chosen);
      lift (getitem SCALE_TYPE_INFO scale_name)
  | Some scale_type => mret scale_type
  end.

(** [Scale.__init__], the block [if clef is None: ...] *)
Definition choose_clef (world : World) (clef : option string) : Gen string :=
  match clef with
  | None =>
      let possible_clefs : gset string :=
        list_to_set (clefs (settings world)) ∩ dom CLEFS in
      choice_gen (elements possible_clefs)
  | Some clef => mret clef
  end.

(** [Scale.__init__], the block [if starts_on is None: ...] *)
Definition choose_starts_on (world : World) (scale_type : ScaleInfo) (clef : string)
    (starts_on : option string) : Gen string :=
  match starts_on with
  | None =>
      the_clef ← lift (getitem CLEFS clef);
      let possible_starts : gset string :=
        possible_starts scale_type ∩ all_notes the_clef world in
      choice_gen (elements possible_starts)
  | Some starts_on => mret starts_on
  end.

(** [Scale.__init__] *)
Definition Scale_init (world : World) (scale_type : option ScaleInfo)
    (starts_on : option string) (clef : option string) : Gen Scale :=
  scale_type ← choose_scale_type world scale_type;
  let pattern := pattern scale_type in
  clef ← choose_clef world clef;
  starts_on ← choose_starts_on world scale_type clef starts_on;
  let int_p := int_from_pattern <$> chars pattern in
  self_pattern ←
    (if ensure_octave int_p then mret int_p
     else lift (Raise (Exception ("InvalidScaleSizeError: " +:+ pattern))));
  self_starts_on ← lift (Note_init starts_on);
  self_clef ← lift (getitem CLEFS clef);
  mret (mkScale self_pattern self_starts_on self_clef).

(** The notes that [Scale.__repr__] walks through: the first note and the
    note reached after each step of the pattern. *)
Fixpoint notes_from (this_note : Note) (steps : list Z) (scale_length : Z)
  : result (list Note) :=
  match steps with
  | [] => Ok [this_note]
  | up :: steps =>
      next ← up_by this_note up scale_length;
      rest ← notes_from next steps scale_length;
      Ok (this_note :: rest)
  end.

(** The note reached by [up_by] along all of [steps]. *)
Fixpoint walk (this_note : Note) (steps : list Z) (scale_length : Z) : result Note :=
  match steps with
  | [] => Ok this_note
  | up :: steps =>
      next ← up_by this_note up scale_length;
      walk next steps scale_length
  end.

(** ** main.py: the check of a guess in [void_keyPressed] *)

(** [sb_pattern == guessed_pattern], with
    [guessed_pattern = [int_from_pattern(c) for c in guessed_pattern_str]]. *)
Definition verify (scale : Scale) (guessed_pattern_str : string) : bool :=
  let sb_pattern := scale_pattern scale in
  let guessed_pattern := int_from_pattern <$> chars guessed_pattern_str in
  bool_decide (sb_pattern = guessed_pattern).

(** ** scale.py: the sheet music of a Scale *)

(** The loop of [Scale.__str__] over [self.pattern + [2]]: the string form of
    the note on the staff is added, then the note goes up by the step. *)
Fixpoint Scale_str_loop (steps : list Z) (scale_length : Z) (clef : Clef)
    (this_note : Note) (disp_text : ustr) : result ustr :=
  match steps with
  | [] => Ok disp_text
  | up :: steps =>
      form ← string_form this_note (Some clef) KeySignature_default false;
      this_note ← up_by this_note up scale_length;
      Scale_str_loop steps scale_length clef this_note (disp_text ++ form)
  end.

(** [Scale.__str__] *)
Definition Scale_str (self : Scale) : result ustr :=
  Scale_str_loop (scale_pattern self ++ [2])   (* The 2 is just so it runs again *)
    (Z.of_nat (length (scale_pattern self))) (scale_clef self) (starts_on self)
    [symbol (scale_clef self)].

(** ** scale.py: the keys of the scale types *)

Definition NORMAL_SCALE_KEYS : list string := ["q"; "w"; "e"; "r"].
Definition CHURCH_MODES_KEYS : list string :=
  (fun i => str_of_int (i + 1)) <$> range (Z.to_nat LETTERS_PER_OCTAVE).

(** [[SCALE_TYPE_INFO[key].name for key in keys]]; the keys are in the
    dictionary. *)
Definition names_of_keys (keys : list string) : list string :=
  omap (fun key => name <$> SCALE_TYPE_INFO !! key) keys.

Definition NORMAL_SCALE_NAMES : list string := names_of_keys NORMAL_SCALE_KEYS.
Definition CHURCH_MODES_NAMES : list string := names_of_keys CHURCH_MODES_KEYS.

(** ** settings.py: validation and the keys of the settings menu *)





(** [l.remove(x)] for an [x] that is in [l]: the first occurrence goes. *)
Fixpoint list_remove (x : string) (l : list string) : list string :=
  match l with
  | [] => []
  | y :: l => if bool_decide (y = x) then l else y :: list_remove x l
  end.

(** [if x in l: l.remove(x) else: l.append(x)] *)
Definition toggle (x : string) (l : list string) : list string :=
  if bool_decide (x ∈ l) then list_remove x l else l ++ [x].

(** [SettingsScreen.toggle_clef], as far as the settings go (the menu is
    drawn again afterwards). *)
Definition toggle_clef (self : Settings) (clef_name : string) : Settings :=
  mkSettings (scale_types self) (toggle clef_name (clefs self))
    (max_sharps_key_signature self) (max_flats_key_signature self)
    (max_high_ledger_positions self) (max_low_ledger_positions self).

(** [void_keyPressed] of the settings menu in the sub-menus "standard scales"
    and "church modes", given the keys and names of the sub-menu, as far as
    the settings go. *)
Definition scales_keyPressed (keys names : list string) (self : Settings)
    (key : string) : result Settings :=
  if negb (bool_decide (key ∈ keys)) then Ok self
  else
    info ← getitem SCALE_TYPE_INFO key;
    let scale_name := name info in
    if bool_decide (scale_name ∈ names) then
      Ok (mkSettings (toggle scale_name (scale_types self)) (clefs self)
            (max_sharps_key_signature self) (max_flats_key_signature self)
            (max_high_ledger_positions self) (max_low_ledger_positions self))
    else Ok self.

(** [void_keyPressed] of the settings menu in the sub-menu "ledger lines": the
    side that is active and the settings after the key, or [None] when the
    key leaves the sub-menu.  [menu.ledger_lines()] validates the ledger
    settings before it draws them. *)
Definition ledger_lines_keyPressed (active_sub_menu_left : bool) (self : Settings)
    (key : string) : option (bool * Settings) :=
  if bool_decide (key = "escape") then None
  else
    let active_sub_menu_left :=
      if bool_decide (key ∈ ["left"; "right"]) then negb active_sub_menu_left
      else active_sub_menu_left in
    let change :=
      if bool_decide (key ∈ ["up"; "down"]) then pm_bool (bool_decide (key = "down"))
      else 0 in
    let self :=
      if active_sub_menu_left then
        mkSettings (scale_types self) (clefs self)
          (max_sharps_key_signature self) (max_flats_key_signature self)
          (max_high_ledger_positions self) (max_low_ledger_positions self + change)
      else
        mkSettings (scale_types self) (clefs self)
          (max_sharps_key_signature self) (max_flats_key_signature self)
          (max_high_ledger_positions self - change) (max_low_ledger_positions self) in
    Some (active_sub_menu_left, validate_ledger_lines self).

(** ** useful.py: menus *)


(** [Menu.resize], for a menu of the given [size_percent]. *)
Definition resize (size_percent value : Z) : Z := (value * size_percent) `div` 100.

(** ** main.py: the boulders of the world *)

Module Main.
Section boulders.
(** A Boulder is of module [boulder], which is not among the sources; the
    world reads the position of its picture only. *)
Context {Boulder : Type}.
Variable boulder_x : Boulder → Z.             (* boulder.boulder.x *)
Variable y_positive : Boulder → bool.         (* boulder.boulder.y > 0 *)
Variable y_gt : Boulder → Boulder → bool.     (* a.boulder.y > b.boulder.y *)

(** The fields of the World that the selection reads and writes;
    [boulders] is a dict, here in the order of insertion. *)
Record World : Type := mkWorld {
  boulders : list (Z * Boulder);
  selected : Z
}.

(** [self.boulders[key]] *)
Fixpoint boulders_getitem (l : list (Z * Boulder)) (key : Z) : result Boulder :=
  match l with
  | [] => Raise (KeyError (str_of_int key))
  | (k, b) :: l => if bool_decide (k = key) then Ok b else boulders_getitem l key
  end.

(** The boulder of key [k] is below the top of the window. *)
Definition onscreen (l : list (Z * Boulder)) (k : Z) : Prop :=
  ∃ b, boulders_getitem l k = Ok b ∧ y_positive b = true.

(** The loop of [sorted_onscreen_boulder_keys] over the sorted keys. *)
Fixpoint good_keys_loop (l : list (Z * Boulder)) (keys : list Z) : result (list Z) :=
  match keys with
  | [] => Ok []
  | key :: keys =>
      b ← boulders_getitem l key;
      good_keys ← good_keys_loop l keys;
      Ok (if y_positive b then key :: good_keys else good_keys)
  end.

(** [World.sorted_onscreen_boulder_keys] *)
Definition sorted_onscreen_boulder_keys (self : World) : result (list Z) :=
  let keys := merge_sort Z.le ((boulders self).*1) in
  good_keys_loop (boulders self) keys.

(** [World.key_of_max_y_boulder] *)
Definition key_of_max_y_boulder (self : World) : result Z :=
  let boulders := (boulders self).*2 in
  max_y ← index boulders 0;
  let max_y := foldl (fun max_y boulder => if y_gt boulder max_y then boulder else max_y)
                 max_y boulders in
  Ok (boulder_x max_y).

(** [World.select]; the alpha of the pictures, which the loop and the last
    line set, is not part of the model. *)
Definition select (self : World) (right : bool) : result World :=
  match boulders self with
  | [] => Ok (mkWorld (boulders self) 0)
  | _ =>
      good_sorted_keys ← sorted_onscreen_boulder_keys self;
      match good_sorted_keys with
      | [] =>
          key ← key_of_max_y_boulder self;
          Ok (mkWorld (boulders self) key)
      | _ =>
          let good_sorted_keys :=
            if right then reverse good_sorted_keys else good_sorted_keys in
          new_selected ← index good_sorted_keys (-1);
          let new_selected :=
            foldl (fun new_selected key =>
                     if selected self * pm_bool right <? pm_bool right * key
                     then key else new_selected)
                  new_selected good_sorted_keys in
          Ok (mkWorld (boulders self) new_selected)
      end
  end.

End boulders.
End Main.

(** ** Notions of the specification *)

(** The letters of the musical alphabet. *)
Definition valid_letter (c : ascii) : Prop := ord "A" <= ord c <= ord "G".

(** The Notes that the constructor makes: a letter A..G, the accidentals as
    sharps only or flats only, and a one-digit octave. *)
Definition wf_note (n : Note) : Prop :=
  valid_letter (letter n)
  ∧ sharp_flat n = accidental_string (get_sharp_flat n)
  ∧ 0 <= octave n <= 9.

(** The next letter of the musical alphabet, as the specification lists it:
    A, B, C, D, E, F, G and back to A. *)
Definition next_in_alphabet (c : ascii) : ascii :=
  match c with
  | "A" => "B" | "B" => "C" | "C" => "D" | "D" => "E"
  | "E" => "F" | "F" => "G" | "G" => "A"
  | _ => c
  end%char.

(** The half steps between a natural letter and the next one: 1 for B to C
    and E to F, 2 otherwise. *)
Definition natural_gap (c : ascii) : Z :=
  match c with
  | "B" | "E" => 1
  | _ => 2
  end%char.

(** The letter reached from [c] after [k] steps through the alphabet, the half
    steps between the natural letters on the way, and how often the way
    leaves a B, which is where the octave number changes. *)
Fixpoint letter_after (k : nat) (c : ascii) : ascii :=
  match k with
  | O => c
  | S k => letter_after k (next_in_alphabet c)
  end.

Fixpoint gap_sum (c : ascii) (k : nat) : Z :=
  match k with
  | O => 0
  | S k => natural_gap c + gap_sum (next_in_alphabet c) k
  end.

Fixpoint octave_crossings (c : ascii) (k : nat) : Z :=
  match k with
  | O => 0
  | S k => (if bool_decide (c = "B"%char) then 1 else 0)
           + octave_crossings (next_in_alphabet c) k
  end.

(** The three spellings of a letter in an octave: flat, natural and sharp. *)
Definition spellings (c : ascii) (o : Z) : list string :=
  [ String c "b" +:+ str_of_int o; String c "" +:+ str_of_int o;
    String c "#" +:+ str_of_int o ].

(** The walk up the staff from the lowest note of a clef, letter by letter
    for [n] letters, the octave going up at each C. *)
Definition staff_walk (clef : Clef) (n : nat) : list string :=
  mjoin ((fun i => spellings (letter_after i (letter (lowest_note clef)))
                     (octave (lowest_note clef)
                      + octave_crossings (letter (lowest_note clef)) i))
           <$> seq 0 n).

(** The letter-octave ordering of Notes.  Octave numbers change at C, so that
    within one run of the letters A..G the letters below C, A and B, carry
    the octave number before the one of C..G: the A and B of octave o go
    with the C..G of octave o + 1.  [octave_from_A] numbers these runs; Notes
    are compared by run first and by letter, A..G, within a run. *)
Definition octave_from_A (n : Note) : Z :=
  octave n + int_of_bool (ord (letter n) <? ord "C").

Definition precedes (a b : Note) : Prop :=
  octave_from_A a < octave_from_A b
  ∨ (octave_from_A a = octave_from_A b ∧ ord (letter a) < ord (letter b)).

(** The height of a natural note in half steps, C of octave 0 being 0. *)
Definition natural_pitch (n : Note) : Z :=
  12 * octave n
  + match letter n with
    | "C" => 0 | "D" => 2 | "E" => 4 | "F" => 5 | "G" => 7 | "A" => 9 | "B" => 11
    | _ => 0
    end%char.

(** The test of the constructor on the first character, and of [int] on the
    last one. *)
Definition is_letter (c : ascii) : bool := (ord "A" <=? ord c) && (ord c <=? ord "G").
Definition is_digit (c : ascii) : bool := (ord "0" <=? ord c) && (ord c <=? ord "9").

(** How often [c] occurs in [l]. *)
Definition occurrences (c : ascii) (l : list ascii) : Z :=
  Z.of_nat (length (filter (fun a => a = c) l)).

(** The compact form of a note string: a letter A..G, zero or more of "#"
    and "b", and one digit. *)
Definition compact_form (note : string) : bool :=
  match chars note with
  | [] => false
  | c :: rest =>
      match reverse rest with
      | [] => false
      | l :: middle =>
          is_letter c
          && forallb (fun a => bool_decide (a = "#"%char) || bool_decide (a = "b"%char)) middle
          && is_digit l
      end
  end.

(** * Properties *)

(** ** Characters and strings *)

Lemma chars_of_chars l : chars (of_chars l) = l.
Proof. apply list_ascii_of_string_of_list_ascii. Qed.

Lemma of_chars_chars s : of_chars (chars s) = s.
Proof. apply string_of_list_ascii_of_string. Qed.

Lemma chars_app s t : chars (s +:+ t) = chars s ++ chars t.
Proof. induction s as [|c s IH]; simpl; [done|]. unfold chars in *. simpl. by rewrite IH. Qed.

Lemma of_chars_app l k : of_chars (l ++ k) = of_chars l +:+ of_chars k.
Proof. induction l as [|c l IH]; simpl; [done|]. unfold of_chars in *. simpl. by rewrite IH. Qed.

Lemma chars_inj s t : chars s = chars t → s = t.
Proof. intros H. by rewrite <- (of_chars_chars s), H, of_chars_chars. Qed.

Lemma str_mul_char c n : str_mul (String c "") n = of_chars (replicate (Z.to_nat n) c).
Proof.
  unfold str_mul. f_equal. change (chars (String c "")) with [c].
  induction (Z.to_nat n) as [|k IH]; simpl; [done|]. by rewrite IH.
Qed.

Lemma accidental_string_chars k :
  chars (accidental_string k)
  = replicate (Z.to_nat k) "#"%char ++ replicate (Z.to_nat (- k)) "b"%char.
Proof.
  unfold accidental_string, SHARP, FLAT.
  by rewrite chars_app, !str_mul_char, !chars_of_chars.
Qed.

Lemma valid_letter_cases c :
  valid_letter c →
  c ∈ ["A"; "B"; "C"; "D"; "E"; "F"; "G"]%char.
Proof.
  unfold valid_letter.
  destruct c as [[] [] [] [] [] [] [] []]; vm_compute; intros [H1 H2];
    try (exfalso; by (apply H1 || apply H2));
    repeat (first [ apply list_elem_of_here | apply list_elem_of_further ]).
Qed.

(** ** Indexing and slicing *)

(** Decide the integer comparisons of the goal. *)
Ltac zbool :=
  repeat match goal with
    | |- context [?a <=? ?b] => destruct (Z.leb_spec a b)
    | |- context [?a <? ?b] => destruct (Z.ltb_spec a b)
    | |- context [?a =? ?b] => destruct (Z.eqb_spec a b)
    end; simpl; try lia.

Lemma index_nil {A} (i : Z) : index ([] : list A) i = Raise IndexError.
Proof. unfold index. simpl length. zbool; done. Qed.

Lemma index_first {A} (x : A) l : index (x :: l) 0 = Ok x.
Proof. unfold index. simpl length. zbool; done. Qed.

Lemma index_last {A} l (x : A) : index (l ++ [x]) (-1) = Ok x.
Proof.
  unfold index. rewrite length_app. simpl length. zbool.
  replace (Z.to_nat (-1 + Z.of_nat (length l + 1))) with (length l) by lia.
  by rewrite list_lookup_middle.
Qed.

Lemma slice_middle {A} (x y : A) mid : slice 1 (-1) (x :: mid ++ [y]) = mid.
Proof.
  unfold slice, slice_bound. simpl length. rewrite length_app. simpl length. zbool.
  replace (Z.to_nat (Z.min 1 (Z.of_nat (S (length mid + 1))))) with 1%nat by lia.
  simpl drop. rewrite drop_0.
  replace (Z.to_nat _) with (length mid) by lia.
  by rewrite take_app_length.
Qed.

Lemma slice_middle_single {A} (x : A) : slice 1 (-1) [x] = [].
Proof. reflexivity. Qed.

(** A list is empty or ends in a last element. *)
Lemma list_empty_or_last {A} (l : list A) :
  l = [] ∨ ∃ mid y, l = mid ++ [y].
Proof.
  destruct l as [|z l] using rev_ind; [by left|]. right. eauto.
Qed.

(** ** The Note constructor *)

Lemma count_accidentals_app l k :
  count_accidentals (l ++ k)
  = foldl (fun sharps_flats accidental =>
             if bool_decide (accidental = "#"%char) then sharps_flats + 1
             else if bool_decide (accidental = "b"%char) then sharps_flats - 1
             else sharps_flats) (count_accidentals l) k.
Proof. unfold count_accidentals. by rewrite foldl_app. Qed.

Lemma count_accidentals_sharps n : count_accidentals (replicate n "#"%char) = Z.of_nat n.
Proof.
  induction n as [|n IH] using nat_ind; [done|].
  rewrite replicate_S_end, count_accidentals_app, IH. simpl. lia.
Qed.

Lemma count_accidentals_flats n : count_accidentals (replicate n "b"%char) = - Z.of_nat n.
Proof.
  induction n as [|n IH] using nat_ind; [done|].
  rewrite replicate_S_end, count_accidentals_app, IH. simpl. lia.
Qed.

Lemma count_accidentals_accidental_string k :
  count_accidentals (chars (accidental_string k)) = k.
Proof.
  rewrite accidental_string_chars.
  destruct (Z.le_gt_cases k 0) as [Hk|Hk].
  - replace (Z.to_nat k) with 0%nat by lia. simpl.
    rewrite count_accidentals_flats. lia.
  - replace (Z.to_nat (- k)) with 0%nat by lia. rewrite app_nil_r.
    rewrite count_accidentals_sharps. lia.
Qed.

Lemma accidental_string_0 : accidental_string 0 = "".
Proof. reflexivity. Qed.

Lemma accidental_string_pos k :
  0 < k → accidental_string k = String "#" (of_chars (replicate (Z.to_nat (k - 1)) "#"%char)).
Proof.
  intros Hk. apply chars_inj. rewrite accidental_string_chars.
  replace (Z.to_nat (- k)) with 0%nat by lia. rewrite app_nil_r.
  replace (Z.to_nat k) with (S (Z.to_nat (k - 1))) by lia.
  unfold chars. simpl. f_equal. symmetry. apply chars_of_chars.
Qed.

Lemma accidental_string_neg k :
  k < 0 → accidental_string k = String "b" (of_chars (replicate (Z.to_nat (- k - 1)) "b"%char)).
Proof.
  intros Hk. apply chars_inj. rewrite accidental_string_chars.
  replace (Z.to_nat k) with 0%nat by lia.
  replace (Z.to_nat (- k)) with (S (Z.to_nat (- k - 1))) by lia.
  unfold chars. simpl. f_equal. symmetry. apply chars_of_chars.
Qed.

Lemma string_length_chars s : String.length s = length (chars s).
Proof. induction s as [|c s IH]; simpl; [done|]. unfold chars in IH. by rewrite IH. Qed.

(** The accidental count of a Note read back from its string of accidentals. *)
Lemma get_sharp_flat_accidental_string L k o :
  get_sharp_flat (mkNote L (accidental_string k) o) = k.
Proof.
  unfold get_sharp_flat. simpl.
  destruct (Z.lt_trichotomy k 0) as [Hk|[->|Hk]].
  - rewrite (accidental_string_neg k Hk). simpl String.length.
    rewrite string_length_chars, chars_of_chars, length_replicate.
    unfold pm_bool. simpl. lia.
  - done.
  - rewrite (accidental_string_pos k Hk). simpl String.length.
    rewrite string_length_chars, chars_of_chars, length_replicate.
    unfold pm_bool. simpl. lia.
Qed.

Lemma wf_note_mk L k o :
  valid_letter L → 0 <= o <= 9 → wf_note (mkNote L (accidental_string k) o).
Proof.
  intros HL Ho. split; [done|]. split; [|done].
  simpl. by rewrite get_sharp_flat_accidental_string.
Qed.

Lemma wf_note_inv n :
  wf_note n → n = mkNote (letter n) (accidental_string (get_sharp_flat n)) (octave n).
Proof. intros (_ & H & _). destruct n; simpl in *. by rewrite <- H. Qed.

Lemma is_letter_valid c : is_letter c = true ↔ valid_letter c.
Proof. unfold is_letter, valid_letter. rewrite andb_true_iff, !Z.leb_le. done. Qed.

Lemma is_letter_invalid c : is_letter c = false ↔ ¬ valid_letter c.
Proof. rewrite <- is_letter_valid. by destruct (is_letter c). Qed.

Lemma int_of_char_digit c : int_of_char c = if is_digit c then Some (ord c - ord "0") else None.
Proof. reflexivity. Qed.

Lemma int_of_char_range c d : int_of_char c = Some d → 0 <= d <= 9.
Proof.
  unfold int_of_char. destruct (_ && _) eqn:H; [|done].
  apply andb_true_iff in H as [H1%Z.leb_le H2%Z.leb_le].
  intros [= <-]. change (ord "0") with 48 in *. change (ord "9") with 57 in *. lia.
Qed.

Lemma letter_not_digit c : valid_letter c → int_of_char c = None.
Proof.
  intros H%valid_letter_cases.
  repeat (apply elem_of_cons in H as [->|H]; [reflexivity|]).
  by apply elem_of_nil in H.
Qed.

Lemma count_accidentals_occurrences l :
  count_accidentals l = occurrences "#" l - occurrences "b" l.
Proof.
  induction l as [|a l IH] using rev_ind; [done|].
  rewrite count_accidentals_app, IH. unfold occurrences.
  rewrite !filter_app, !length_app. simpl foldl.
  destruct (decide (a = "#"%char)) as [->|H1].
  - rewrite bool_decide_true by done. simpl. lia.
  - rewrite (bool_decide_false _ H1).
    destruct (decide (a = "b"%char)) as [->|H2].
    + rewrite bool_decide_true by done. simpl. lia.
    + rewrite (bool_decide_false _ H2).
      rewrite !filter_cons_False by done. simpl. lia.
Qed.

Lemma Note_init_empty : Note_init "" = Raise IndexError.
Proof. reflexivity. Qed.

Lemma Note_init_chars c mid l :
  Note_init (of_chars (c :: mid ++ [l]))
  = if is_letter c then
      match int_of_char l with
      | Some d => Ok (mkNote c (accidental_string (count_accidentals mid)) d)
      | None => Raise (Exception ("InvalidOctaveError: " +:+ String l ""))
      end
    else Raise (Exception ("InvalidNoteLetterError: " +:+ String c "")).
Proof.
  unfold Note_init. rewrite chars_of_chars, index_first.
  replace (index (c :: mid ++ [l]) (-1)) with (Ok l : result ascii)
    by (symmetry; apply (index_last (c :: mid) l)).
  rewrite slice_middle. cbn [mbind result_bind]. fold (is_letter c).
  destruct (is_letter c); [|done]. by destruct (int_of_char l).
Qed.

Lemma Note_init_single c :
  Note_init (String c "")
  = if is_letter c then Raise (Exception ("InvalidOctaveError: " +:+ String c ""))
    else Raise (Exception ("InvalidNoteLetterError: " +:+ String c "")).
Proof.
  unfold Note_init. change (chars (String c "")) with [c].
  rewrite index_first.
  replace (index [c] (-1)) with (Ok c : result ascii)
    by (symmetry; apply (index_last [] c)).
  cbn [mbind result_bind]. fold (is_letter c). destruct (is_letter c) eqn:Hc; [|done].
  apply is_letter_valid, letter_not_digit in Hc. by rewrite Hc.
Qed.

(** Every Note that the constructor returns is well formed. *)
Lemma Note_init_wf note n : Note_init note = Ok n → wf_note n.
Proof.
  rewrite <- (of_chars_chars note).
  destruct (chars note) as [|c rest]; [done|].
  destruct (list_empty_or_last rest) as [->|(mid & l & ->)].
  - change (of_chars [c]) with (String c ""). rewrite Note_init_single.
    by destruct (is_letter c).
  - rewrite Note_init_chars. destruct (is_letter c) eqn:Hc; [|done].
    destruct (int_of_char l) as [d|] eqn:Hl; [|done]. intros [= <-].
    apply wf_note_mk; [by apply is_letter_valid | by eapply int_of_char_range].
Qed.

(** ** Note.up_by *)

Lemma str_of_int_digit o :
  0 <= o <= 9 → ∃ c, str_of_int o = String c "" ∧ int_of_char c = Some o.
Proof.
  intros Ho.
  assert (o = 0 ∨ o = 1 ∨ o = 2 ∨ o = 3 ∨ o = 4 ∨ o = 5 ∨ o = 6 ∨ o = 7 ∨ o = 8 ∨ o = 9)
    as H by lia.
  repeat (destruct H as [->|H]; [eexists; split; reflexivity|]).
  subst o. eexists; split; reflexivity.
Qed.

(** A note string in compact form is read back as the Note it spells. *)
Lemma Note_init_compact L k o :
  valid_letter L → 0 <= o <= 9 →
  Note_init (String L (accidental_string k) +:+ str_of_int o)
  = Ok (mkNote L (accidental_string k) o).
Proof.
  intros HL Ho. destruct (str_of_int_digit o Ho) as (c & -> & Hc).
  replace (String L (accidental_string k) +:+ String c "")
    with (of_chars (L :: chars (accidental_string k) ++ [c])).
  - rewrite Note_init_chars, Hc, count_accidentals_accidental_string.
    apply is_letter_valid in HL. by rewrite HL.
  - apply chars_inj. by rewrite chars_of_chars, chars_app.
Qed.

(** With octave 10 the constructor keeps the last digit, 0. *)
Lemma Note_init_octave_10 L k :
  valid_letter L →
  Note_init (String L (accidental_string k) +:+ str_of_int 10)
  = Ok (mkNote L (accidental_string k) 0).
Proof.
  intros HL. change (str_of_int 10) with "10".
  replace (String L (accidental_string k) +:+ "10")
    with (of_chars (L :: (chars (accidental_string k) ++ ["1"%char]) ++ ["0"%char])).
  - rewrite Note_init_chars, count_accidentals_app, count_accidentals_accidental_string.
    apply is_letter_valid in HL. by rewrite HL.
  - apply chars_inj. rewrite chars_of_chars, chars_app, <- app_assoc. done.
Qed.

Lemma get_next_letter_alphabet L : valid_letter L → get_next_letter L = next_in_alphabet L.
Proof.
  intros H%valid_letter_cases.
  repeat (apply elem_of_cons in H as [->|H]; [reflexivity|]).
  by apply elem_of_nil in H.
Qed.

Lemma next_in_alphabet_valid L : valid_letter L → valid_letter (next_in_alphabet L).
Proof.
  intros H%valid_letter_cases.
  repeat (apply elem_of_cons in H as [->|H]; [by vm_compute|]).
  by apply elem_of_nil in H.
Qed.

Lemma natural_gap_B_E L :
  valid_letter L →
  (if bool_decide (L ∈ ["B"%char; "E"%char]) then 1 else 2) = natural_gap L.
Proof.
  intros H%valid_letter_cases.
  repeat (apply elem_of_cons in H as [->|H]; [by vm_compute|]).
  by apply elem_of_nil in H.
Qed.

(** The [match] of [up_by] on the length of the scale only tells 7 from the
    other lengths. *)
Lemma match_scale_length {T} (x y : T) (scale_length : Z) :
  match scale_length with
  | 5 => x | 6 => x | 7 => y | 8 => x | 12 => x | _ => x
  end = if scale_length =? 7 then y else x.
Proof.
  destruct scale_length as [|p|p]; try done.
  do 4 (try destruct p as [p|p|]; try done).
Qed.

(** [up_by] with 7 letters to the octave, on a well-formed Note. *)
Lemma up_by_7 n h :
  wf_note n → 1 <= h <= 3 →
  up_by n h 7
  = Ok (mkNote (next_in_alphabet (letter n))
          (accidental_string (get_sharp_flat n + h - natural_gap (letter n)))
          (if bool_decide (letter n = "B"%char)
           then (if octave n =? 9 then 0 else octave n + 1)
           else octave n)).
Proof.
  intros (HL & _ & Ho) Hh. unfold up_by.
  replace (negb ((1 <=? h) && (h <=? 3))) with false by (zbool; done).
  cbv zeta. cbn [bool_decide]. cbv beta iota.
  rewrite (natural_gap_B_E _ HL), (get_next_letter_alphabet _ HL).
  pose proof (next_in_alphabet_valid _ HL) as HL'.
  case_bool_decide as HB.
  - destruct (Z.eqb_spec (octave n) 9) as [->|H9].
    + by apply Note_init_octave_10.
    + apply Note_init_compact; [done|lia].
  - rewrite Z.add_0_r. by apply Note_init_compact.
Qed.

(** [up_by] for a scale that has not 7 letters. *)
Lemma up_by_other n h scale_length :
  wf_note n → 1 <= h <= 3 → scale_length ≠ 7 →
  up_by n h scale_length
  = Ok (mkNote (letter n) (accidental_string (get_sharp_flat n + h)) (octave n)).
Proof.
  intros (HL & _ & Ho) Hh Hlen. unfold up_by.
  replace (negb ((1 <=? h) && (h <=? 3))) with false by (zbool; done).
  cbv zeta. rewrite match_scale_length.
  destruct (Z.eqb_spec scale_length 7); [done|].
  by apply Note_init_compact.
Qed.

(** ** Walking a pattern of a 7-letter scale *)

Lemma octave_crossings_nonneg c k : 0 <= octave_crossings c k.
Proof.
  revert c. induction k as [|k IH]; intros c; simpl; [done|].
  specialize (IH (next_in_alphabet c)). case_bool_decide; lia.
Qed.

(** The Note reached along any pattern, as long as the octave stays a digit. *)
Lemma walk_7 p : ∀ n,
  wf_note n → Forall (fun h => 1 <= h <= 3) p →
  octave n + octave_crossings (letter n) (length p) <= 9 →
  walk n p 7
  = Ok (mkNote (letter_after (length p) (letter n))
          (accidental_string (get_sharp_flat n + sum p - gap_sum (letter n) (length p)))
          (octave n + octave_crossings (letter n) (length p))).
Proof.
  induction p as [|h p IH]; intros n Hn Hp Ho.
  - simpl. rewrite (wf_note_inv n Hn) at 1. do 2 f_equal; [f_equal|]; lia.
  - apply Forall_cons in Hp as [Hh Hp]. simpl length in *. simpl in Ho.
    pose proof (octave_crossings_nonneg (next_in_alphabet (letter n)) (length p)) as Hc.
    pose proof Hn as (HL & _ & Hoct).
    cbn [walk]. rewrite (up_by_7 n h Hn Hh). cbn [mbind result_bind].
    set (o' := if bool_decide (letter n = "B"%char)
               then (if octave n =? 9 then 0 else octave n + 1) else octave n).
    assert (o' = octave n + (if bool_decide (letter n = "B"%char) then 1 else 0)) as Ho'.
    { unfold o'. case_bool_decide; [|lia]. destruct (Z.eqb_spec (octave n) 9); lia. }
    rewrite IH.
    + cbn [letter octave]. rewrite get_sharp_flat_accidental_string.
      simpl. rewrite Ho'. do 2 f_equal; [f_equal|]; lia.
    + apply wf_note_mk; [by apply next_in_alphabet_valid|].
      rewrite Ho'. case_bool_decide; lia.
    + apply Hp.
    + cbn [letter octave]. rewrite Ho'. lia.
Qed.

(** Seven steps lead through the whole alphabet: back to the letter, over 12
    half steps, leaving B once. *)
Lemma seven_letters c :
  valid_letter c →
  letter_after 7 c = c ∧ gap_sum c 7 = 12 ∧ octave_crossings c 7 = 1.
Proof.
  intros H%valid_letter_cases.
  repeat (apply elem_of_cons in H as [->|H]; [by vm_compute|]).
  by apply elem_of_nil in H.
Qed.

(** The way leaves B after at most six steps, and not again within seven. *)
Lemma one_crossing c :
  valid_letter c →
  ∃ j : nat, (j < 7)%nat ∧
    ∀ k : nat, (k <= 7)%nat → octave_crossings c k = if (k <=? j)%nat then 0 else 1.
Proof.
  intros H%valid_letter_cases.
  assert (∀ (P : nat → Prop), P 0%nat → P 1%nat → P 2%nat → P 3%nat → P 4%nat →
            P 5%nat → P 6%nat → P 7%nat → ∀ k, (k <= 7)%nat → P k) as cases.
  { intros P ? ? ? ? ? ? ? ? k Hk.
    do 8 (destruct k as [|k]; [done|]). lia. }
  repeat (apply elem_of_cons in H as [->|H];
    [ first [ exists 0%nat; split; [lia|]; apply cases; by vm_compute
            | exists 1%nat; split; [lia|]; apply cases; by vm_compute
            | exists 2%nat; split; [lia|]; apply cases; by vm_compute
            | exists 3%nat; split; [lia|]; apply cases; by vm_compute
            | exists 4%nat; split; [lia|]; apply cases; by vm_compute
            | exists 5%nat; split; [lia|]; apply cases; by vm_compute
            | exists 6%nat; split; [lia|]; apply cases; by vm_compute ] |]).
  by apply elem_of_nil in H.
Qed.

(** ** The claims on [up_by] *)

(** C1, as amended.  For every Note [n] (letter L, accidental count a, octave
    o in 0..9) that is not a B of octave 9, and every h in 1..3,
    [n.up_by(h, 7)] returns the Note whose letter is the next letter of the
    musical alphabet after L (G wraps to A), whose accidental count is
    a + h - g, with g = 1 for L in B, E and g = 2 otherwise, and whose octave
    is o + 1 if L is B and o otherwise. *)
Theorem up_by_seven_letters (n : Note) (h : Z) :
  wf_note n → 1 <= h <= 3 →
  letter n ≠ "B"%char ∨ octave n <= 8 →
  ∃ n', up_by n h 7 = Ok n'
    ∧ letter n' = next_in_alphabet (letter n)
    ∧ get_sharp_flat n' = get_sharp_flat n + h - natural_gap (letter n)
    ∧ octave n' = if bool_decide (letter n = "B"%char) then octave n + 1 else octave n.
Proof.
  intros Hn Hh Hb. eexists. split; [by apply up_by_7|].
  split; [done|]. split; [by rewrite get_sharp_flat_accidental_string|].
  cbn [octave]. case_bool_decide; [|done].
  destruct Hb as [Hb|Hb]; [done|]. destruct (Z.eqb_spec (octave n) 9); [lia|done].
Qed.

Lemma up_by_seven_letters_witness :
  ∃ n', up_by (mkNote "B" "b" 4) 3 7 = Ok n'
    ∧ letter n' = "C"%char
    ∧ get_sharp_flat n' = -1 + 3 - 1
    ∧ octave n' = 4 + 1.
Proof.
  apply (up_by_seven_letters (mkNote "B" "b" 4) 3).
  - repeat split; by vm_compute.
  - lia.
  - right. simpl. lia.
Defined.

(** C1 as stated fails on a B of octave 9: the octave of the result is 0,
    the last digit of 10, and not 9 + 1. *)
Lemma up_by_B9_octave :
  wf_note (mkNote "B" "" 9)
  ∧ up_by (mkNote "B" "" 9) 1 7 = Ok (mkNote "C" "" 0)
  ∧ octave (mkNote "C" "" 0) ≠ octave (mkNote "B" "" 9) + 1.
Proof. repeat split; by vm_compute. Qed.

(** C2.  For every Note [n] with octave in 0..8 and every pattern of 7 steps,
    each in 1..3 and 12 in sum, [up_by(step, 7)] applied along the pattern
    from [n] yields a Note with the letter and the accidental count of [n]
    and the octave of [n] plus one; the octave changes at one step of the
    walk only: the notes reached after at most [j] steps have the octave of
    [n], the later ones that octave plus one. *)
Theorem up_by_round_trip (n : Note) (p : list Z) :
  wf_note n → 0 <= octave n <= 8 →
  length p = 7%nat → Forall (fun h => 1 <= h <= 3) p → sum p = 12 →
  ∃ n', walk n p 7 = Ok n'
    ∧ letter n' = letter n
    ∧ get_sharp_flat n' = get_sharp_flat n
    ∧ octave n' = octave n + 1
    ∧ ∃ j : nat, (j < 7)%nat ∧
        ∀ k : nat, (k <= 7)%nat →
          ∃ m, walk n (take k p) 7 = Ok m
            ∧ octave m = if (k <=? j)%nat then octave n else octave n + 1.
Proof.
  intros Hn Ho Hlen Hp Hsum.
  pose proof Hn as (HL & _ & _).
  destruct (seven_letters _ HL) as (Hl7 & Hg7 & Hc7).
  destruct (one_crossing _ HL) as (j & Hj & Hcross).
  eexists. split; [|split; [|split; [|split]]].
  - apply walk_7; [done..|]. rewrite Hlen, Hc7. lia.
  - cbn [letter]. by rewrite Hlen.
  - rewrite get_sharp_flat_accidental_string, Hlen, Hg7, Hsum. lia.
  - cbn [octave]. by rewrite Hlen, Hc7.
  - exists j. split; [done|]. intros k Hk.
    assert (length (take k p) = k) as Hlk by (rewrite length_take; lia).
    eexists. split.
    + apply walk_7; [done|by apply Forall_take|].
      rewrite Hlk, (Hcross k Hk). destruct (k <=? j)%nat; lia.
    + cbn [octave]. rewrite Hlk, (Hcross k Hk). destruct (k <=? j)%nat; lia.
Qed.

Lemma up_by_round_trip_witness :
  ∃ n', walk (mkNote "A" "b" 3) [2; 1; 2; 2; 1; 3; 1] 7 = Ok n'
    ∧ letter n' = "A"%char
    ∧ get_sharp_flat n' = -1
    ∧ octave n' = 3 + 1
    ∧ ∃ j : nat, (j < 7)%nat ∧
        ∀ k : nat, (k <= 7)%nat →
          ∃ m, walk (mkNote "A" "b" 3) (take k [2; 1; 2; 2; 1; 3; 1]) 7 = Ok m
            ∧ octave m = if (k <=? j)%nat then 3 else 3 + 1.
Proof.
  apply (up_by_round_trip (mkNote "A" "b" 3) [2; 1; 2; 2; 1; 3; 1]).
  - repeat split; by vm_compute.
  - simpl. lia.
  - reflexivity.
  - repeat constructor; lia.
  - reflexivity.
Defined.

(** C8.  For every Note [n], every h in 1..3 and every scale length in
    5, 6, 8, 12, [n.up_by(h, scale_length)] returns a Note with the letter
    and the octave of [n] and the accidental count of [n] plus h. *)
Theorem up_by_keeps_letter (n : Note) (h scale_length : Z) :
  wf_note n → 1 <= h <= 3 → scale_length ∈ [5; 6; 8; 12] →
  ∃ n', up_by n h scale_length = Ok n'
    ∧ letter n' = letter n
    ∧ octave n' = octave n
    ∧ get_sharp_flat n' = get_sharp_flat n + h.
Proof.
  intros Hn Hh Hlen. eexists. split.
  - apply up_by_other; [done..|].
    intros ->. repeat (apply elem_of_cons in Hlen as [?|Hlen]; [done|]).
    by apply elem_of_nil in Hlen.
  - split; [done|]. split; [done|]. by rewrite get_sharp_flat_accidental_string.
Qed.

Lemma up_by_keeps_letter_witness :
  ∃ n', up_by (mkNote "F" "#" 5) 2 6 = Ok n'
    ∧ letter n' = "F"%char
    ∧ octave n' = 5
    ∧ get_sharp_flat n' = 1 + 2.
Proof.
  apply (up_by_keeps_letter (mkNote "F" "#" 5) 2 6).
  - repeat split; by vm_compute.
  - lia.
  - apply list_elem_of_further, list_elem_of_here.
Defined.

(** ** The claim on the Note constructor *)

Lemma raises_letter_error {A} c :
  raises (A:=A) "InvalidNoteLetterError"
    (Raise (Exception ("InvalidNoteLetterError: " +:+ String c "")))
  ∧ ¬ raises (A:=A) "InvalidOctaveError"
    (Raise (Exception ("InvalidNoteLetterError: " +:+ String c ""))).
Proof. split; by vm_compute. Qed.

Lemma raises_octave_error {A} c :
  raises (A:=A) "InvalidOctaveError"
    (Raise (Exception ("InvalidOctaveError: " +:+ String c "")))
  ∧ ¬ raises (A:=A) "InvalidNoteLetterError"
    (Raise (Exception ("InvalidOctaveError: " +:+ String c ""))).
Proof. split; by vm_compute. Qed.

Lemma is_digit_int_of_char c :
  is_digit c = false ↔ int_of_char c = None.
Proof. rewrite int_of_char_digit. by destruct (is_digit c). Qed.

(** What the constructor does with a string of one character, and of more. *)
Lemma Note_init_of_chars c rest :
  ∃ l, last (c :: rest) = Some l ∧
    Note_init (of_chars (c :: rest))
    = if is_letter c then
        match int_of_char l with
        | Some d => Ok (mkNote c (accidental_string
                                    (count_accidentals (slice 1 (-1) (c :: rest)))) d)
        | None => Raise (Exception ("InvalidOctaveError: " +:+ String l ""))
        end
      else Raise (Exception ("InvalidNoteLetterError: " +:+ String c "")).
Proof.
  destruct (list_empty_or_last rest) as [->|(mid & l & ->)].
  - exists c. split; [done|].
    change (of_chars [c]) with (String c ""). rewrite Note_init_single.
    destruct (is_letter c) eqn:Hc; [|done].
    apply is_letter_valid, letter_not_digit in Hc. by rewrite Hc.
  - exists l. split.
    + change (c :: mid ++ [l]) with ((c :: mid) ++ [l]). apply last_snoc.
    + by rewrite Note_init_chars, slice_middle.
Qed.

(** C7, as amended.  Parsing a note string raises InvalidNoteLetterError
    exactly when the string has a first character and this is not a letter
    A..G; it raises InvalidOctaveError exactly when the first character is a
    letter A..G and the last character is not a decimal digit; the empty
    string raises IndexError; every other string is accepted, whatever
    stands between its first and its last character: the Note has the first
    character as letter, the last digit as octave and, as accidental count,
    the number of "#" less the number of "b" between the two. *)
Theorem Note_init_parses (note : string) :
  (raises "InvalidNoteLetterError" (Note_init note)
     ↔ ∃ c rest, note = String c rest ∧ ¬ valid_letter c)
  ∧ (raises "InvalidOctaveError" (Note_init note)
     ↔ ∃ c rest l, note = String c rest ∧ valid_letter c
         ∧ last (chars note) = Some l ∧ is_digit l = false)
  ∧ (Note_init note = Raise IndexError ↔ note = "")
  ∧ (∀ n, Note_init note = Ok n
     ↔ ∃ c rest l, note = String c rest ∧ valid_letter c
         ∧ last (chars note) = Some l ∧ is_digit l = true
         ∧ let middle := slice 1 (-1) (chars note) in
           n = mkNote c
                 (accidental_string (occurrences "#" middle - occurrences "b" middle))
                 (ord l - ord "0")).
Proof.
  destruct note as [|c rest].
  { rewrite Note_init_empty. split; [|split; [|split]].
    - split; [done|]. by intros (c & rest & ? & _).
    - split; [done|]. by intros (c & rest & l & ? & _).
    - done.
    - intros n. split; [done|]. by intros (c & rest & l & ? & _). }
  destruct (Note_init_of_chars c (chars rest)) as (l & Hlast & Hinit).
  change (of_chars (c :: chars rest)) with (String c (of_chars (chars rest))) in Hinit.
  rewrite of_chars_chars in Hinit.
  change (chars (String c rest)) with (c :: chars rest).
  rewrite Hinit, Hlast, int_of_char_digit, count_accidentals_occurrences.
  destruct (is_letter c) eqn:Hc.
  - apply is_letter_valid in Hc as Hv.
    destruct (is_digit l) eqn:Hl.
    + split; [|split; [|split]].
      * split; [done|]. intros (c0 & r0 & [= <- <-] & Hn). done.
      * split; [done|]. intros (c0 & r0 & l0 & _ & _ & [= <-] & Hf). congruence.
      * done.
      * intros n. split.
        -- intros [= <-]. by exists c, rest, l.
        -- intros (c0 & r0 & l0 & [= <- <-] & _ & [= <-] & _ & ->). done.
    + destruct (raises_octave_error (A:=Note) l) as [H1 H2].
      split; [|split; [|split]].
      * split; [done|]. intros (c0 & r0 & [= <- <-] & Hn). done.
      * split; [|done]. intros _. by exists c, rest, l.
      * done.
      * intros n. split; [done|].
        intros (c0 & r0 & l0 & _ & _ & [= <-] & Hf & _). congruence.
  - apply is_letter_invalid in Hc as Hv.
    destruct (raises_letter_error (A:=Note) c) as [H1 H2].
    split; [|split; [|split]].
    + split; [|done]. intros _. by exists c, rest.
    + split; [done|]. intros (c0 & r0 & l0 & [= <- <-] & Hn & _). done.
    + done.
    + intros n. split; [done|].
      intros (c0 & r0 & l0 & [= <- <-] & Hn & _). done.
Qed.

(** C7 as stated fails twice.  "Ax4" is not in the compact form, and is
    accepted as the Note A of octave 4 all the same; and the last character
    of "X?" is no digit, while the error raised is InvalidNoteLetterError,
    not InvalidOctaveError. *)
Lemma Note_init_accepts_other_forms :
  compact_form "Ax4" = false
  ∧ Note_init "Ax4" = Ok (mkNote "A" "" 4)
  ∧ is_digit "?" = false
  ∧ Note_init "X?" = Raise (Exception "InvalidNoteLetterError: X")
  ∧ ¬ raises "InvalidOctaveError" (Note_init "X?").
Proof. repeat split; by vm_compute. Qed.

(** ** The claim on the staff position *)

(** The letter-octave ordering is the ordering of the natural notes by
    height. *)
Lemma precedes_natural_pitch a b :
  valid_letter (letter a) → valid_letter (letter b) →
  precedes a b ↔ natural_pitch a < natural_pitch b.
Proof.
  destruct a as [la sa oa], b as [lb sb ob]. cbn [letter].
  intros Ha%valid_letter_cases Hb%valid_letter_cases.
  unfold precedes, octave_from_A, natural_pitch. cbn [letter octave].
  repeat (apply elem_of_cons in Ha as [->|Ha]);
    try (by apply elem_of_nil in Ha);
    repeat (apply elem_of_cons in Hb as [->|Hb]);
    try (by apply elem_of_nil in Hb);
    vm_compute int_of_bool; vm_compute ord; lia.
Qed.

(** C6.  For every clef [c] and Notes [a], [b]: if [a] precedes [b] in the
    letter-octave ordering (octaves compared once the letters below C, A and
    B, are put with the C..G that follow them, then letters compared A..G),
    then font_offset_number(a, c) < font_offset_number(b, c). *)
Theorem font_offset_number_increasing (c : Clef) (a b : Note) :
  wf_note a → wf_note b → precedes a b →
  font_offset_number a c < font_offset_number b c.
Proof.
  intros (Ha & _) (Hb & _) Hab.
  unfold font_offset_number, precedes, octave_from_A, valid_letter in *.
  change LETTERS_PER_OCTAVE with 7.
  change (ord "A") with 65 in *. change (ord "G") with 71 in *.
  lia.
Qed.

Lemma font_offset_number_increasing_witness :
  font_offset_number (mkNote "G" "#" 3) (mkClef "Treble" 0xE0AE (mkNote "A" "" 3) [] [])
  < font_offset_number (mkNote "A" "b" 3) (mkClef "Treble" 0xE0AE (mkNote "A" "" 3) [] []).
Proof.
  apply (font_offset_number_increasing
           (mkClef "Treble" 0xE0AE (mkNote "A" "" 3) [] [])
           (mkNote "G" "#" 3) (mkNote "A" "b" 3)).
  - repeat split; by vm_compute.
  - repeat split; by vm_compute.
  - left. by vm_compute.
Defined.

(** ** The claim on the check of a guess *)

Lemma gen_bind_Ok {A B} (m : Gen A) (f : A → Gen B) tape b tape' :
  (m ≫= f) tape = Ok (b, tape') →
  ∃ a tape1, m tape = Ok (a, tape1) ∧ f a tape1 = Ok (b, tape').
Proof.
  unfold mbind, gen_bind. destruct (m tape) as [[a tape1]|e]; [|done]. eauto.
Qed.

Lemma lift_Ok {A} (r : result A) tape a tape' :
  lift r tape = Ok (a, tape') → r = Ok a ∧ tape' = tape.
Proof. destruct r; [|done]. by intros [= -> ->]. Qed.

Lemma getitem_Ok {V} (d : gmap string V) key v : getitem d key = Ok v → d !! key = Some v.
Proof. unfold getitem. destruct (d !! key); [|done]. by intros [= ->]. Qed.

(** A Scale that the constructor returns comes from its three choices. *)
Lemma Scale_init_Ok world scale_type starts clef tape sc tape' :
  Scale_init world scale_type starts clef tape = Ok (sc, tape') →
  ∃ st clef_name start tape1 tape2,
    choose_scale_type world scale_type tape = Ok (st, tape1)
    ∧ choose_clef world clef tape1 = Ok (clef_name, tape2)
    ∧ choose_starts_on world st clef_name starts tape2 = Ok (start, tape')
    ∧ scale_pattern sc = int_from_pattern <$> chars (pattern st)
    ∧ sum (scale_pattern sc) = 12
    ∧ Note_init start = Ok (starts_on sc)
    ∧ CLEFS !! clef_name = Some (scale_clef sc).
Proof.
  unfold Scale_init.
  intros (st & tape1 & Hst & H)%gen_bind_Ok.
  apply gen_bind_Ok in H as (clef_name & tape2 & Hclef & H).
  apply gen_bind_Ok in H as (start & tape3 & Hstart & H).
  apply gen_bind_Ok in H as (int_p & tape4 & Hp & H).
  apply gen_bind_Ok in H as (note & tape5 & Hnote & H).
  apply gen_bind_Ok in H as (the_clef & tape6 & Hthe & H).
  injection H as <- <-.
  apply lift_Ok in Hnote as [Hnote ->]. apply lift_Ok in Hthe as [Hthe%getitem_Ok ->].
  destruct (ensure_octave _) eqn:Hoct; [|done]. injection Hp as <- <-.
  exists st, clef_name, start, tape1, tape2.
  repeat split; try done. by apply Z.eqb_eq.
Qed.

Lemma int_from_pattern_table c :
  int_from_pattern c
  = if bool_decide (c = "H"%char) then 1
    else if bool_decide (c = "W"%char) then 2
    else if bool_decide (c = "3"%char) then 3
    else 0.
Proof. destruct c as [[] [] [] [] [] [] [] []]; reflexivity. Qed.

(** C4.  The check of a guess maps each character of the guess by H to 1,
    W to 2, 3 to 3 and any other character to 0, and is true exactly when
    the list of these numbers has the length and the elements of the
    pattern of the Scale.  For a Scale that the constructor made of the
    scale type [st], the check of the pattern string of [st] is true, and a
    guess that maps to a different list of numbers is checked as false. *)
Theorem verify_exact world scale_type starts clef tape sc tape' st tape1
    (guess : string) :
  choose_scale_type world scale_type tape = Ok (st, tape1) →
  Scale_init world scale_type starts clef tape = Ok (sc, tape') →
  (∀ c, int_from_pattern c
        = if bool_decide (c = "H"%char) then 1
          else if bool_decide (c = "W"%char) then 2
          else if bool_decide (c = "3"%char) then 3
          else 0)
  ∧ (verify sc guess = true
     ↔ length (chars guess) = length (scale_pattern sc)
       ∧ ∀ (i : nat) c, chars guess !! i = Some c →
           scale_pattern sc !! i = Some (int_from_pattern c))
  ∧ verify sc (pattern st) = true
  ∧ (int_from_pattern <$> chars guess ≠ int_from_pattern <$> chars (pattern st) →
     verify sc guess = false).
Proof.
  intros Hst (st' & ? & ? & ? & ? & Hst' & _ & _ & Hp & _)%Scale_init_Ok.
  rewrite Hst in Hst'. injection Hst' as <- <-.
  unfold verify. rewrite Hp.
  split; [apply int_from_pattern_table|]. split; [|split].
  - rewrite bool_decide_eq_true. split.
    + intros H. rewrite H, length_fmap. split; [done|].
      intros i c Hc. by rewrite list_lookup_fmap, Hc.
    + intros [Hlen Hel]. symmetry. apply list_eq. intros i.
      rewrite list_lookup_fmap.
      destruct (chars guess !! i) as [c|] eqn:Hc.
      * by rewrite (Hel i c Hc).
      * simpl. symmetry. apply lookup_ge_None. apply lookup_ge_None in Hc. lia.
  - by apply bool_decide_eq_true.
  - intros Hne. apply bool_decide_eq_false. congruence.
Qed.

Lemma verify_exact_witness :
  match Scale_init (mkWorld DEFAULT_CONFIG) None None None [1; 1; 7]%nat with
  | Ok (sc, _) =>
      scale_pattern sc = [2; 2; 1; 2; 2; 2; 1]
      ∧ verify sc "WWHWWWH" = true ∧ verify sc "WHWWHWW" = false
  | Raise _ => False
  end.
Proof.
  pose (st := ScaleInfo_new "Major" "WWHWWWH"
                ["Cb"; "Gb"; "Db"; "Ab"; "Eb"; "Bb"; "F";
                 "C"; "G"; "D"; "A"; "E"; "B"; "F#"; "C#"]).
  pose (sc := mkScale [2; 2; 1; 2; 2; 2; 1] (mkNote "C" "" 4)
                (mkClef "Treble" 0xE0AE (mkNote "A" "" 3)
                   [false; true; false; false; true; false]
                   [false; true; false; true; false; true])).
  assert (choose_scale_type (mkWorld DEFAULT_CONFIG) None [1; 1; 7]%nat
          = Ok (st, [1; 7]%nat)) as Hst by (vm_compute; reflexivity).
  assert (Scale_init (mkWorld DEFAULT_CONFIG) None None None [1; 1; 7]%nat
          = Ok (sc, [])) as H by (vm_compute; reflexivity).
  destruct (verify_exact _ _ _ _ _ _ _ _ _ "WHWWHWW" Hst H) as (_ & _ & H1 & H2).
  rewrite H. split; [reflexivity|]. split; [exact H1|].
  apply H2. by vm_compute.
Defined.

(** ** The claims on key signatures and the string form on the staff *)

Lemma chr_in_range i : 0 <= i < 0x110000 → chr i = Ok i.
Proof. intros Hi. unfold chr. zbool; done. Qed.

(** The staff position of a Note is within a few octaves of the clef's
    lowest note, so that the glyphs of the font are in the range of [chr]. *)
Lemma font_offset_number_bounds n clef :
  wf_note n → wf_note (lowest_note clef) →
  -100 < font_offset_number n clef < 100.
Proof.
  intros (Hn & _ & Ho) (Hc & _ & Hoc).
  unfold font_offset_number, valid_letter, int_of_bool in *.
  change LETTERS_PER_OCTAVE with 7.
  change (ord "A") with 65 in *. change (ord "G") with 71 in *.
  destruct (ord (letter n) <? ord "C"), (ord (letter (lowest_note clef)) <? ord "C"); lia.
Qed.

Lemma get_sharp_flat_0 n : get_sharp_flat n = 0 ↔ sharp_flat n = "".
Proof.
  unfold get_sharp_flat. destruct (sharp_flat n) as [|c s]; [done|].
  split; [|done]. simpl String.length. unfold pm_bool.
  destruct (bool_decide _); lia.
Qed.

Lemma replace_replicate (c : ascii) (g : Z) k :
  (fun a => if bool_decide (a = c) then g else ord a) <$> replicate k c = replicate k g.
Proof.
  induction k as [|k IH]; [done|].
  cbn [replicate]. rewrite fmap_cons, IH. by rewrite bool_decide_true.
Qed.

(** The accidentals of a well-formed Note on the staff of a clef: nothing or
    one natural sign for a natural note, otherwise as many sharp or flat
    signs, at the position of the note, as its accidental count. *)
Lemma accidentals_symbols_wf n clef with_natural :
  wf_note n → wf_note (lowest_note clef) →
  accidentals_symbols n clef with_natural
  = Ok (if get_sharp_flat n =? 0 then
          if with_natural then [NATURALS_START + font_offset_number n clef] else []
        else
          replicate (Z.abs_nat (get_sharp_flat n))
            ((if 0 <? get_sharp_flat n then SHARPS_START else FLATS_START)
             + font_offset_number n clef)).
Proof.
  intros Hn Hc. pose proof (font_offset_number_bounds n clef Hn Hc) as Hb.
  pose proof Hn as (_ & Hsf & _).
  unfold accidentals_symbols.
  remember (get_sharp_flat n) as k eqn:Ek. rewrite Hsf. clear Hsf Ek.
  destruct (Z.lt_trichotomy k 0) as [Hk|[->|Hk]].
  - rewrite (accidental_string_neg _ Hk).
    change (ACCIDENTALS_START !! String "b" "") with (Some FLATS_START).
    cbn [mbind result_bind].
    rewrite chr_in_range by (unfold FLATS_START; lia). cbn [mbind result_bind].
    change (chars (String "b" ?s)) with ("b"%char :: chars s).
    rewrite chars_of_chars, fmap_cons, replace_replicate, bool_decide_true by done.
    zbool. f_equal.
    replace (Z.abs_nat k) with (S (Z.to_nat (- k - 1))) by lia. done.
  - rewrite accidental_string_0. simpl.
    destruct with_natural; [|done]. simpl.
    rewrite chr_in_range by (unfold NATURALS_START; lia). done.
  - rewrite (accidental_string_pos _ Hk).
    change (ACCIDENTALS_START !! String "#" "") with (Some SHARPS_START).
    cbn [mbind result_bind].
    rewrite chr_in_range by (unfold SHARPS_START; lia). cbn [mbind result_bind].
    change (chars (String "#" ?s)) with ("#"%char :: chars s).
    rewrite chars_of_chars, fmap_cons, replace_replicate, bool_decide_true by done.
    zbool. f_equal.
    replace (Z.abs_nat k) with (S (Z.to_nat (k - 1))) by lia. done.
Qed.

Lemma KeySignature_default_contains n :
  KeySignature_contains KeySignature_default n = false.
Proof.
  unfold KeySignature_contains. cbn [sharps_flats KeySignature_default].
  change (slice_to 0 (chars ORDER_OF_SHARPS)) with (@nil ascii).
  apply bool_decide_eq_false, not_elem_of_nil.
Qed.

(** C10.  For every Note [n], membership in the default KeySignature, whose
    count of sharps and flats is 0, is False; so [string_form] with a clef
    and the default key signature takes the branch of an uncovered note: the
    accidentals are those of [accidentals_symbols] without naturals, that
    is no marker for a natural note and the sharp or flat markers of the
    note otherwise, followed by the note on the staff. *)
Theorem string_form_default_key_signature (n : Note) (clef : Clef) (with_octave : bool) :
  wf_note n → wf_note (lowest_note clef) →
  KeySignature_contains KeySignature_default n = false
  ∧ string_form n (Some clef) KeySignature_default with_octave
    = (accidental ← accidentals_symbols n clef false;
       Ok (accidental ++ [NOTES_START + font_offset_number n clef]))
  ∧ string_form n (Some clef) KeySignature_default with_octave
    = Ok ((if get_sharp_flat n =? 0 then []
           else replicate (Z.abs_nat (get_sharp_flat n))
                  ((if 0 <? get_sharp_flat n then SHARPS_START else FLATS_START)
                   + font_offset_number n clef))
          ++ [NOTES_START + font_offset_number n clef]).
Proof.
  intros Hn Hc. pose proof (font_offset_number_bounds n clef Hn Hc) as Hb.
  split; [apply KeySignature_default_contains|].
  unfold string_form. rewrite KeySignature_default_contains.
  rewrite (accidentals_symbols_wf n clef false Hn Hc). cbn [mbind result_bind].
  rewrite chr_in_range by (unfold NOTES_START; lia). cbn [mbind result_bind].
  split; [done|]. by destruct (get_sharp_flat n =? 0).
Qed.

Lemma string_form_default_key_signature_witness :
  KeySignature_contains KeySignature_default (mkNote "F" "##" 4) = false
  ∧ string_form (mkNote "F" "##" 4)
      (Some (mkClef "Treble" 0xE0AE (mkNote "A" "" 3) [] [])) KeySignature_default false
    = (accidental ← accidentals_symbols (mkNote "F" "##" 4)
                      (mkClef "Treble" 0xE0AE (mkNote "A" "" 3) [] []) false;
       Ok (accidental ++ [0xE000 + 6]))
  ∧ string_form (mkNote "F" "##" 4)
      (Some (mkClef "Treble" 0xE0AE (mkNote "A" "" 3) [] [])) KeySignature_default false
    = Ok [0xE060 + 6; 0xE060 + 6; 0xE000 + 6].
Proof.
  apply (string_form_default_key_signature (mkNote "F" "##" 4)
           (mkClef "Treble" 0xE0AE (mkNote "A" "" 3) [] []) false).
  - repeat split; by vm_compute.
  - repeat split; by vm_compute.
Defined.

(** C9.  For every Note with accidental count 0 whose letter is covered by a
    KeySignature with a count of sharps or flats other than 0, the test
    [note ^ key_signature] returns True, and the string form of the note on
    the staff is the natural sign followed by the note, both at the staff
    position of the note. *)
Theorem natural_in_key_signature (n : Note) (ks : KeySignature) (clef : Clef)
    (with_octave : bool) :
  wf_note n → wf_note (lowest_note clef) →
  get_sharp_flat n = 0 → sharps_flats ks ≠ 0 → KeySignature_contains ks n = true →
  KeySignature_rxor ks n = Ok true
  ∧ accidentals_symbols n clef true = Ok [NATURALS_START + font_offset_number n clef]
  ∧ string_form n (Some clef) ks with_octave
    = Ok [NATURALS_START + font_offset_number n clef;
          NOTES_START + font_offset_number n clef].
Proof.
  intros Hn Hc Hk Hks Hin.
  pose proof (font_offset_number_bounds n clef Hn Hc) as Hb.
  assert (KeySignature_rxor ks n = Ok true) as Hx.
  { unfold KeySignature_rxor. rewrite Hin. cbn [negb].
    apply get_sharp_flat_0 in Hk. rewrite Hk.
    change (cmp_str ("" +:+ "A") "A") with 0. unfold cmp_int. zbool; done. }
  assert (accidentals_symbols n clef true
          = Ok [NATURALS_START + font_offset_number n clef]) as Ha.
  { rewrite (accidentals_symbols_wf n clef true Hn Hc), Hk. done. }
  split; [done|]. split; [done|].
  unfold string_form. rewrite Hin, Hx. cbn [mbind result_bind]. rewrite Ha.
  cbn [mbind result_bind].
  rewrite chr_in_range by (unfold NOTES_START; lia). done.
Qed.

Lemma natural_in_key_signature_witness :
  KeySignature_rxor (mkKeySignature 1) (mkNote "F" "" 4) = Ok true
  ∧ accidentals_symbols (mkNote "F" "" 4)
      (mkClef "Treble" 0xE0AE (mkNote "A" "" 3) [] []) true = Ok [0xE040 + 6]
  ∧ string_form (mkNote "F" "" 4)
      (Some (mkClef "Treble" 0xE0AE (mkNote "A" "" 3) [] [])) (mkKeySignature 1) false
    = Ok [0xE040 + 6; 0xE000 + 6].
Proof.
  apply (natural_in_key_signature (mkNote "F" "" 4) (mkKeySignature 1)
           (mkClef "Treble" 0xE0AE (mkNote "A" "" 3) [] []) false).
  - repeat split; by vm_compute.
  - repeat split; by vm_compute.
  - reflexivity.
  - simpl. lia.
  - reflexivity.
Defined.

(** ** The claim on the notes of a clef *)

Lemma next_letter_is_C c :
  valid_letter c →
  bool_decide (get_next_letter c = "C"%char) = bool_decide (c = "B"%char).
Proof.
  intros H%valid_letter_cases.
  repeat (apply elem_of_cons in H as [->|H]; [by vm_compute|]).
  by apply elem_of_nil in H.
Qed.

(** The loop of [all_notes] adds the walk up the staff to its list. *)
Lemma all_notes_loop_walk n : ∀ acc c o,
  valid_letter c →
  all_notes_loop n acc c o
  = acc ++ mjoin ((fun i => spellings (letter_after i c) (o + octave_crossings c i))
                    <$> seq 0 n).
Proof.
  induction n as [|n IH]; intros acc c o Hc.
  - simpl. by rewrite app_nil_r.
  - cbn [all_notes_loop]. cbv zeta.
    rewrite IH by (rewrite get_next_letter_alphabet by done; by apply next_in_alphabet_valid).
    rewrite next_letter_is_C, get_next_letter_alphabet by done.
    rewrite <- app_assoc. f_equal.
    change (seq 0 (S n)) with (0%nat :: seq 1 n).
    rewrite <- fmap_S_seq, (fmap_cons _ 0%nat), <- list_fmap_compose.
    change (mjoin (?x :: ?l)) with (x ++ mjoin l). f_equal.
    + cbn [letter_after octave_crossings]. by rewrite Z.add_0_r.
    + f_equal. apply list_fmap_ext. intros _ i _. cbn [compose letter_after octave_crossings].
      f_equal. case_bool_decide; lia.
Qed.

Lemma drop_join_triples {A} (ls : list (list A)) (j : nat) :
  Forall (fun l => length l = 3%nat) ls →
  drop (3 * j) (mjoin ls) = mjoin (drop j ls).
Proof.
  intros Hls. revert j. induction Hls as [|l ls Hl _ IH]; intros j.
  - rewrite drop_nil. change (mjoin (@nil (list A))) with (@nil A). by rewrite drop_nil.
  - destruct j as [|j]; [done|].
    replace (3 * S j)%nat with (3 + 3 * j)%nat by lia.
    change (mjoin (l :: ls)) with (l ++ mjoin ls). cbn [drop].
    rewrite drop_app_add' by done. apply IH.
Qed.

Lemma take_join_triples {A} (ls : list (list A)) (m : nat) :
  Forall (fun l => length l = 3%nat) ls →
  take (3 * m) (mjoin ls) = mjoin (take m ls).
Proof.
  intros Hls. revert m. induction Hls as [|l ls Hl _ IH]; intros m.
  - rewrite take_nil. change (mjoin (@nil (list A))) with (@nil A). by rewrite take_nil.
  - destruct m as [|m]; [done|].
    replace (3 * S m)%nat with (3 + 3 * m)%nat by lia.
    change (mjoin (l :: ls)) with (l ++ mjoin ls). cbn [take].
    rewrite take_app_add' by done. by rewrite IH.
Qed.

Lemma length_join_triples {A} (ls : list (list A)) :
  Forall (fun l => length l = 3%nat) ls → length (mjoin ls) = (3 * length ls)%nat.
Proof.
  induction 1 as [|l ls Hl _ IH]; [done|].
  change (mjoin (l :: ls)) with (l ++ mjoin ls).
  rewrite length_app, IH, Hl. simpl. lia.
Qed.

Lemma spellings_triples (f : nat → ascii) (g : nat → Z) (l : list nat) :
  Forall (fun l => length l = 3%nat) ((fun i => spellings (f i) (g i)) <$> l).
Proof. apply Forall_fmap, Forall_forall. by intros. Qed.

Lemma length_staff_walk clef n : length (staff_walk clef n) = (3 * n)%nat.
Proof.
  unfold staff_walk. rewrite length_join_triples by apply spellings_triples.
  by rewrite length_fmap, length_seq.
Qed.

(** The window on the walk: the letters number [j] to [m - 1]. *)
Lemma staff_walk_window clef (j m : nat) :
  (j <= m <= 10)%nat →
  drop (3 * j) (take (3 * m) (staff_walk clef 10))
  = mjoin ((fun i => spellings (letter_after i (letter (lowest_note clef)))
                       (octave (lowest_note clef)
                        + octave_crossings (letter (lowest_note clef)) i))
             <$> seq j (m - j)).
Proof.
  intros Hjm. unfold staff_walk.
  rewrite take_join_triples by apply spellings_triples.
  rewrite <- fmap_take, take_seq.
  rewrite drop_join_triples by apply spellings_triples.
  rewrite <- fmap_drop, drop_seq.
  repeat f_equal; lia.
Qed.

(** One step up the staff: the position counted in letters goes up by 1. *)
Lemma staff_position_step c o :
  valid_letter c →
  7 * (o + (if bool_decide (c = "B"%char) then 1 else 0)
       + int_of_bool (ord (next_in_alphabet c) <? ord "C"))
    + ord (next_in_alphabet c)
  = 7 * (o + int_of_bool (ord c <? ord "C")) + ord c + 1.
Proof.
  intros H%valid_letter_cases.
  repeat (apply elem_of_cons in H as [->|H];
    [vm_compute bool_decide; vm_compute next_in_alphabet;
     vm_compute int_of_bool; vm_compute ord; cbv iota; lia|]).
  by apply elem_of_nil in H.
Qed.

Lemma staff_position_after i : ∀ c o,
  valid_letter c →
  valid_letter (letter_after i c)
  ∧ 7 * (o + octave_crossings c i + int_of_bool (ord (letter_after i c) <? ord "C"))
      + ord (letter_after i c)
    = 7 * (o + int_of_bool (ord c <? ord "C")) + ord c + Z.of_nat i.
Proof.
  induction i as [|i IH]; intros c o Hc.
  - simpl. split; [done|lia].
  - cbn [letter_after octave_crossings].
    destruct (IH (next_in_alphabet c)
                (o + (if bool_decide (c = "B"%char) then 1 else 0))
                (next_in_alphabet_valid c Hc)) as [Hv Heq].
    split; [done|].
    pose proof (staff_position_step c o Hc) as Hstep. lia.
Qed.

(** The [i]-th letter of the walk stands at staff position [i + 1]. *)
Lemma font_offset_number_walk clef i acc :
  valid_letter (letter (lowest_note clef)) →
  font_offset_number
    (mkNote (letter_after i (letter (lowest_note clef))) acc
       (octave (lowest_note clef) + octave_crossings (letter (lowest_note clef)) i))
    clef
  = Z.of_nat i + 1.
Proof.
  intros Hc.
  destruct (staff_position_after i (letter (lowest_note clef))
              (octave (lowest_note clef)) Hc) as [_ H].
  unfold font_offset_number. cbn [letter octave]. change LETTERS_PER_OCTAVE with 7. lia.
Qed.

(** Up to ten letters from the start, the walk passes at most two Cs. *)
Lemma octave_crossings_bound c (i : nat) :
  valid_letter c → (i < 10)%nat → 0 <= octave_crossings c i <= 2.
Proof.
  intros H%valid_letter_cases Hi.
  assert (∀ (P : nat → Prop), P 0%nat → P 1%nat → P 2%nat → P 3%nat → P 4%nat →
            P 5%nat → P 6%nat → P 7%nat → P 8%nat → P 9%nat →
            ∀ k, (k < 10)%nat → P k) as cases.
  { intros P ? ? ? ? ? ? ? ? ? ? k Hk.
    do 10 (destruct k as [|k]; [done|]). lia. }
  revert i Hi.
  repeat (apply elem_of_cons in H as [->|H]; [apply cases; by vm_compute|]).
  by apply elem_of_nil in H.
Qed.

(** Each spelling of a letter is read by the Note constructor as that
    letter in that octave. *)
Lemma Note_init_spelling c o s :
  valid_letter c → 0 <= o <= 9 → s ∈ spellings c o →
  ∃ acc, Note_init s = Ok (mkNote c acc o).
Proof.
  intros Hc Ho Hs. unfold spellings in Hs.
  apply elem_of_cons in Hs as [->|Hs]; [|apply elem_of_cons in Hs as [->|Hs]].
  - exists "b". apply (Note_init_compact c (-1) o Hc Ho).
  - exists "". apply (Note_init_compact c 0 o Hc Ho).
  - apply list_elem_of_singleton in Hs as ->.
    exists "#". apply (Note_init_compact c 1 o Hc Ho).
Qed.

(** The list of [all_notes] before the slice is the walk of ten letters. *)
Lemma all_notes_loop_staff_walk clef :
  valid_letter (letter (lowest_note clef)) →
  all_notes_loop (Z.to_nat (TOTAL_NOTES - LETTERS_PER_OCTAVE)) []
    (letter (lowest_note clef)) (octave (lowest_note clef))
  = staff_walk clef 10.
Proof.
  intros Hc. change (Z.to_nat (TOTAL_NOTES - LETTERS_PER_OCTAVE)) with 10%nat.
  by rewrite all_notes_loop_walk.
Qed.

(** With ledger settings in 0..4 the slice of [all_notes] cuts three entries
    for each ledger position that is not allowed, below and above. *)
Lemma all_notes_list_window clef world :
  valid_letter (letter (lowest_note clef)) →
  0 <= max_low_ledger_positions (settings world) <= 4 →
  0 <= max_high_ledger_positions (settings world) <= 4 →
  all_notes_list clef world
  = drop (3 * Z.to_nat (4 - max_low_ledger_positions (settings world)))
      (take (30 - 3 * Z.to_nat (4 - max_high_ledger_positions (settings world)))
         (staff_walk clef 10)).
Proof.
  intros Hc Hlow Hhigh. unfold all_notes_list.
  rewrite all_notes_loop_staff_walk by done.
  unfold slice, slice_bound. rewrite length_staff_walk.
  change LEDGER_LINES with 4. change (Z.of_nat (3 * 10)) with 30.
  set (low := max_low_ledger_positions (settings world)) in *.
  set (high := max_high_ledger_positions (settings world)) in *.
  zbool.
  rewrite take_drop_commute. f_equal; [lia|]. f_equal. lia.
Qed.

(** C5.  For every clef, [all_notes] walks letter by letter from the clef's
    lowest note for TOTAL_NOTES - 7 = 10 letters, with the flat, natural and
    sharp spelling of each letter and octave, and then cuts the first
    3 * (4 - max_low_ledger_positions) and the last
    3 * (4 - max_high_ledger_positions) entries.  Every note of the set
    stands above the low ledger positions that are not allowed, and the note
    an octave above it stands below the high ones that are not allowed; with
    both settings 0 the notes of the set are on the staff, outside the
    ledger positions. *)
Theorem all_notes_window (clef : Clef) (world : World) :
  wf_note (lowest_note clef) → octave (lowest_note clef) <= 7 →
  0 <= max_low_ledger_positions (settings world) <= 4 →
  0 <= max_high_ledger_positions (settings world) <= 4 →
  TOTAL_NOTES - LETTERS_PER_OCTAVE = 10
  ∧ length (staff_walk clef 10) = 30%nat
  ∧ all_notes clef world
    = list_to_set
        (drop (3 * Z.to_nat (4 - max_low_ledger_positions (settings world)))
           (take (30 - 3 * Z.to_nat (4 - max_high_ledger_positions (settings world)))
              (staff_walk clef 10)))
  ∧ (∀ s, s ∈ all_notes clef world →
       ∃ n, Note_init s = Ok n
         ∧ LEDGER_LINES - max_low_ledger_positions (settings world)
           < font_offset_number n clef
         ∧ font_offset_number n clef + LETTERS_PER_OCTAVE
           <= TOTAL_NOTES - (LEDGER_LINES - max_high_ledger_positions (settings world)))
  ∧ (max_low_ledger_positions (settings world) = 0 →
     max_high_ledger_positions (settings world) = 0 →
     ∀ s, s ∈ all_notes clef world →
       ∃ n, Note_init s = Ok n
         ∧ LEDGER_LINES < font_offset_number n clef <= TOTAL_NOTES - LEDGER_LINES).
Proof.
  intros (Hc & _ & Ho) Ho7 Hlow Hhigh.
  assert (∀ s, s ∈ all_notes clef world →
       ∃ n, Note_init s = Ok n
         ∧ LEDGER_LINES - max_low_ledger_positions (settings world)
           < font_offset_number n clef
         ∧ font_offset_number n clef + LETTERS_PER_OCTAVE
           <= TOTAL_NOTES - (LEDGER_LINES - max_high_ledger_positions (settings world)))
    as Hpos.
  { intros s. unfold all_notes. rewrite elem_of_list_to_set.
    rewrite all_notes_list_window by done.
    set (low := max_low_ledger_positions (settings world)) in *.
    set (high := max_high_ledger_positions (settings world)) in *.
    replace (30 - 3 * Z.to_nat (4 - high))%nat
      with (3 * (10 - Z.to_nat (4 - high)))%nat by lia.
    rewrite staff_walk_window by lia.
    intros (l & Hs & Hl)%list_elem_of_join.
    apply list_elem_of_fmap in Hl as (i & -> & Hi). apply elem_of_seq in Hi.
    destruct (staff_position_after i _ (octave (lowest_note clef)) Hc) as [Hv _].
    pose proof (octave_crossings_bound (letter (lowest_note clef)) i Hc) as Hcross.
    assert (i < 10)%nat as Hi10 by lia. specialize (Hcross Hi10).
    destruct (Note_init_spelling (letter_after i (letter (lowest_note clef)))
                (octave (lowest_note clef)
                 + octave_crossings (letter (lowest_note clef)) i) s)
      as [acc Hn]; [done|lia|done|].
    eexists. split; [exact Hn|].
    rewrite font_offset_number_walk by done.
    change LEDGER_LINES with 4. change LETTERS_PER_OCTAVE with 7.
    change TOTAL_NOTES with 17. lia. }
  split; [done|]. split; [apply length_staff_walk|]. split; [|split; [done|]].
  - unfold all_notes. by rewrite all_notes_list_window.
  - intros H0 H0' s Hs. destruct (Hpos s Hs) as (n & Hn & H1 & H2).
    exists n. split; [done|]. rewrite H0 in H1. rewrite H0' in H2.
    change LEDGER_LINES with 4 in *. change LETTERS_PER_OCTAVE with 7 in *.
    change TOTAL_NOTES with 17 in *. lia.
Qed.

Lemma all_notes_window_witness :
  all_notes (mkClef "Treble" 0xE0AE (mkNote "A" "" 3) [] [])
    (mkWorld (mkSettings ["Major"] ["Treble"] 4 4 0 0))
  = list_to_set
      (drop 12 (take 18 (staff_walk (mkClef "Treble" 0xE0AE (mkNote "A" "" 3) [] []) 10)))
  ∧ ∀ s, s ∈ all_notes (mkClef "Treble" 0xE0AE (mkNote "A" "" 3) [] [])
               (mkWorld (mkSettings ["Major"] ["Treble"] 4 4 0 0)) →
      ∃ n, Note_init s = Ok n
        ∧ 4 < font_offset_number n (mkClef "Treble" 0xE0AE (mkNote "A" "" 3) [] []) <= 13.
Proof.
  destruct (all_notes_window (mkClef "Treble" 0xE0AE (mkNote "A" "" 3) [] [])
              (mkWorld (mkSettings ["Major"] ["Treble"] 4 4 0 0)))
    as (_ & _ & Hset & _ & Hstaff).
  - repeat split; by vm_compute.
  - simpl. lia.
  - simpl. lia.
  - simpl. lia.
  - split; [exact Hset|]. exact (Hstaff eq_refl eq_refl).
Defined.

(** ** The claim on a Scale without a possible start *)

Lemma gen_bind_eq {A B} (m : Gen A) (f : A → Gen B) tape a tape1 :
  m tape = Ok (a, tape1) → (m ≫= f) tape = f a tape1.
Proof. intros H. unfold mbind, gen_bind. by rewrite H. Qed.

Lemma gen_bind_Raise {A B} (m : Gen A) (f : A → Gen B) tape e :
  m tape = Raise e → (m ≫= f) tape = Raise e.
Proof. intros H. unfold mbind, gen_bind. by rewrite H. Qed.

Lemma choice_gen_nil {A} tape : choice_gen (@nil A) tape = Raise IndexError.
Proof. by destruct tape. Qed.

(** Without possible starts the third choice raises IndexError. *)
Lemma choose_starts_on_empty world st clef_name the_clef tape :
  CLEFS !! clef_name = Some the_clef →
  possible_starts st ∩ all_notes the_clef world = ∅ →
  choose_starts_on world st clef_name None tape = Raise IndexError.
Proof.
  intros Hclef Hempty. unfold choose_starts_on.
  rewrite (gen_bind_eq _ _ tape the_clef tape)
    by (unfold getitem; by rewrite Hclef).
  rewrite Hempty, elements_empty. apply choice_gen_nil.
Qed.

(** C3, as amended.  For every configuration of the settings in which the
    possible starts of the chosen scale type and the notes of the chosen
    clef have no note in common, the constructor of Scale, asked to choose
    the start, fails with IndexError, which [choice] raises on the empty
    sequence; no Scale is made and no start is made up.  The source has no
    error called NoValidStartError. *)
Theorem Scale_init_no_possible_start world scale_type clef tape st clef_name
    the_clef tape1 tape2 :
  choose_scale_type world scale_type tape = Ok (st, tape1) →
  choose_clef world clef tape1 = Ok (clef_name, tape2) →
  CLEFS !! clef_name = Some the_clef →
  possible_starts st ∩ all_notes the_clef world = ∅ →
  Scale_init world scale_type None clef tape = Raise IndexError
  ∧ raises "IndexError" (Scale_init world scale_type None clef tape)
  ∧ ∀ sc tape', Scale_init world scale_type None clef tape ≠ Ok (sc, tape').
Proof.
  intros Hst Hclef Hthe Hempty.
  assert (Scale_init world scale_type None clef tape = Raise IndexError) as H.
  { unfold Scale_init.
    rewrite (gen_bind_eq _ _ _ _ _ Hst). cbv zeta.
    rewrite (gen_bind_eq _ _ _ _ _ Hclef).
    apply gen_bind_Raise. by eapply choose_starts_on_empty. }
  rewrite H. split; [done|]. split; [by vm_compute|]. by intros sc tape'.
Qed.

Lemma Scale_init_no_possible_start_witness :
  Scale_init (mkWorld (mkSettings ["Major"] ["Treble"] 4 4 0 0))
    (Some (ScaleInfo_new "C Major" "WWHWWWH" ["C"])) None None [0]%nat
  = Raise IndexError
  ∧ raises "IndexError"
      (Scale_init (mkWorld (mkSettings ["Major"] ["Treble"] 4 4 0 0))
         (Some (ScaleInfo_new "C Major" "WWHWWWH" ["C"])) None None [0]%nat)
  ∧ ∀ sc tape',
      Scale_init (mkWorld (mkSettings ["Major"] ["Treble"] 4 4 0 0))
        (Some (ScaleInfo_new "C Major" "WWHWWWH" ["C"])) None None [0]%nat
      ≠ Ok (sc, tape').
Proof.
  apply (Scale_init_no_possible_start
           (mkWorld (mkSettings ["Major"] ["Treble"] 4 4 0 0))
           (Some (ScaleInfo_new "C Major" "WWHWWWH" ["C"])) None [0]%nat
           (ScaleInfo_new "C Major" "WWHWWWH" ["C"]) "Treble"
           (mkClef "Treble" 0xE0AE (mkNote "A" "" 3)
              [false; true; false; false; true; false]
              [false; true; false; true; false; true])
           [0]%nat []).
  - reflexivity.
  - vm_compute. reflexivity.
  - vm_compute. reflexivity.
  - vm_compute. reflexivity.
Defined.

(** C3 as stated fails: with the ledger settings 0 and 0 the treble clef
    offers E and F of octave 4 only; for a scale type that starts on C the
    constructor raises IndexError, which is not called NoValidStartError. *)
Lemma Scale_init_raises_IndexError :
  possible_starts (ScaleInfo_new "C Major" "WWHWWWH" ["C"])
    ∩ all_notes (mkClef "Treble" 0xE0AE (mkNote "A" "" 3)
                   [false; true; false; false; true; false]
                   [false; true; false; true; false; true])
        (mkWorld (mkSettings ["Major"] ["Treble"] 4 4 0 0))
  = ∅
  ∧ Scale_init (mkWorld (mkSettings ["Major"] ["Treble"] 4 4 0 0))
      (Some (ScaleInfo_new "C Major" "WWHWWWH" ["C"])) None None [0]%nat
    = Raise IndexError
  ∧ exn_named "NoValidStartError" IndexError = false
  ∧ ¬ raises "NoValidStartError"
      (Scale_init (mkWorld (mkSettings ["Major"] ["Treble"] 4 4 0 0))
         (Some (ScaleInfo_new "C Major" "WWHWWWH" ["C"])) None None [0]%nat).
Proof. repeat split; by vm_compute. Qed.

(** ** The catalogues *)

(** The lowest notes of the clefs are the Notes of the strings in the
    source. *)
Lemma CLEFS_lowest_notes :
  (fun item => Ok (lowest_note item.2)) <$> CLEFS_items
  = Note_init <$> ["C2"; "A3"; "E2"; "G2"; "B2"; "D3"; "F3"].
Proof. by vm_compute. Qed.

(** Every pattern of the catalogue fills an octave. *)
Lemma SCALE_TYPE_INFO_patterns :
  Forall (fun item => ensure_octave (int_from_pattern <$> chars (pattern item.2)) = true)
    SCALE_TYPE_INFO_items.
Proof. repeat constructor. Qed.

Lemma index_elem {A} (l : list A) i x : index l i = Ok x → x ∈ l.
Proof.
  unfold index. destruct (_ && _); [|done].
  destruct (l !! _) as [y|] eqn:Hy; [|done]. intros [= ->].
  by eapply list_elem_of_lookup_2.
Qed.

Lemma choice_elem {A} pick (l : list A) x : choice pick l = Ok x → x ∈ l.
Proof. destruct l as [|y l]; [done|]. apply index_elem. Qed.

Lemma choice_gen_elem {A} (l : list A) tape x tape' :
  choice_gen l tape = Ok (x, tape') → x ∈ l.
Proof.
  destruct tape as [|pick tape]; intros [H _]%lift_Ok; by eapply choice_elem.
Qed.

(** A Scale for which the constructor chose the start starts on a note that
    is a possible start of its scale type and a note of its clef. *)
Lemma Scale_init_start_possible world scale_type clef tape sc tape' :
  Scale_init world scale_type None clef tape = Ok (sc, tape') →
  ∃ st tape1 start,
    choose_scale_type world scale_type tape = Ok (st, tape1)
    ∧ start ∈ possible_starts st ∩ all_notes (scale_clef sc) world
    ∧ Note_init start = Ok (starts_on sc).
Proof.
  intros (st & clef_name & start & tape1 & tape2 & Hst & _ & Hstart & _ & _ & Hn & Hc)
    %Scale_init_Ok.
  exists st, tape1, start. split; [done|]. split; [|done].
  unfold choose_starts_on in Hstart.
  apply gen_bind_Ok in Hstart as (the_clef & tape3 & Hthe & Hchoice).
  apply lift_Ok in Hthe as [Hthe%getitem_Ok ->].
  rewrite Hc in Hthe. injection Hthe as <-.
  apply choice_gen_elem in Hchoice. by apply elem_of_elements.
Qed.

(** After [validate_ledger_lines] both ledger settings are in 0..4, the
    range for which the window of [all_notes] is stated. *)
Lemma validate_ledger_lines_range self :
  0 <= max_low_ledger_positions (validate_ledger_lines self) <= 4
  ∧ 0 <= max_high_ledger_positions (validate_ledger_lines self) <= 4.
Proof. unfold validate_ledger_lines. simpl. change LEDGER_LINES with 4. lia. Qed.

(** With a scale type and a clef of the catalogues and ledger settings in
    0..4 there always is a possible start: the case without one arises for
    other scale types only. *)
Lemma catalogue_has_start_check :
  forallb (fun st : string * ScaleInfo =>
    forallb (fun clef : string * Clef =>
      forallb (fun low =>
        forallb (fun high =>
          existsb (fun s => bool_decide (s ∈ possible_starts st.2))
            (all_notes_list clef.2 (mkWorld (mkSettings [] [] 0 0 high low))))
          (range 5)) (range 5)) CLEFS_items) SCALE_TYPE_INFO_items = true.
Proof. vm_compute. reflexivity. Qed.

Lemma range_5 z : 0 <= z <= 4 → In z (range 5).
Proof.
  intros Hz. assert (z = 0 ∨ z = 1 ∨ z = 2 ∨ z = 3 ∨ z = 4) as H by lia.
  destruct H as [->|[->|[->|[->| ->]]]]; vm_compute; tauto.
Qed.

Lemma catalogue_has_start key st clef_name clef world :
  In (key, st) SCALE_TYPE_INFO_items → In (clef_name, clef) CLEFS_items →
  0 <= max_low_ledger_positions (settings world) <= 4 →
  0 <= max_high_ledger_positions (settings world) <= 4 →
  possible_starts st ∩ all_notes clef world ≠ ∅.
Proof.
  destruct world as [[ts cs s f high low]]. cbn [settings max_low_ledger_positions
    max_high_ledger_positions].
  intros Hst Hclef Hlow%range_5 Hhigh%range_5 Hempty.
  pose proof catalogue_has_start_check as H.
  rewrite forallb_forall in H. specialize (H _ Hst).
  rewrite forallb_forall in H. specialize (H _ Hclef).
  rewrite forallb_forall in H. specialize (H _ Hlow).
  rewrite forallb_forall in H. specialize (H _ Hhigh).
  apply existsb_exists in H as (start & Hin & Hposs%bool_decide_eq_true).
  cbn [snd] in Hin, Hposs.
  assert (start ∈ possible_starts st
                  ∩ all_notes clef (mkWorld (mkSettings ts cs s f high low))) as Hstart.
  { apply elem_of_intersection. split; [done|].
    unfold all_notes. apply elem_of_list_to_set, list_elem_of_In. exact Hin. }
  rewrite Hempty in Hstart. by apply not_elem_of_empty in Hstart.
Qed.

(** ** The scenarios of the specification *)

Example major_from_C4 :
  notes_from (mkNote "C" "" 4) (int_from_pattern <$> chars "WWHWWWH") 7
  = Ok [mkNote "C" "" 4; mkNote "D" "" 4; mkNote "E" "" 4; mkNote "F" "" 4;
        mkNote "G" "" 4; mkNote "A" "" 4; mkNote "B" "" 4; mkNote "C" "" 5].
Proof. by vm_compute. Qed.

Example natural_minor_from_A3 :
  notes_from (mkNote "A" "" 3) (int_from_pattern <$> chars "WHWWHWW") 7
  = Ok [mkNote "A" "" 3; mkNote "B" "" 3; mkNote "C" "" 4; mkNote "D" "" 4;
        mkNote "E" "" 4; mkNote "F" "" 4; mkNote "G" "" 4; mkNote "A" "" 4].
Proof. by vm_compute. Qed.
(** * Further properties of the code *)

(** ** Notes *)

(** X1.  The string of a Note, as [str] makes it, is read back by the
    constructor as the same Note. *)
Theorem Note_str_round_trip (n : Note) :
  wf_note n → Note_init (Note_str n) = Ok n.
Proof.
  intros Hn. pose proof Hn as (HL & Hsf & Ho).
  destruct (str_of_int_digit (octave n) Ho) as (c & Hc & Hd).
  unfold Note_str. rewrite Hc.
  replace (String (letter n) (sharp_flat n) +:+ " " +:+ String c "")
    with (of_chars (letter n :: (chars (sharp_flat n) ++ [" "%char]) ++ [c])).
  - rewrite Note_init_chars, Hd, count_accidentals_app.
    apply is_letter_valid in HL. rewrite HL. cbn [foldl].
    rewrite bool_decide_false, bool_decide_false by done.
    rewrite Hsf at 1. rewrite count_accidentals_accidental_string, <- Hsf.
    by destruct n.
  - apply chars_inj. rewrite chars_of_chars.
    change (chars (String ?a ?s)) with (a :: chars s).
    rewrite !chars_app, <- app_assoc. done.
Qed.

Lemma Note_str_round_trip_witness :
  Note_init (Note_str (mkNote "E" "bb" 5)) = Ok (mkNote "E" "bb" 5).
Proof.
  apply (Note_str_round_trip (mkNote "E" "bb" 5)).
  repeat split; by vm_compute.
Defined.

(** X2.  On a Note of the constructor, [up_by] returns a Note exactly when
    the step is 1, 2 or 3, whatever the length of the scale, and the Note
    it returns is again one of the constructor; any other step raises
    ValueError with the message BadSizedScaleJumpError. *)
Theorem up_by_succeeds_iff (n : Note) (h scale_length : Z) :
  wf_note n →
  ((∃ n', up_by n h scale_length = Ok n' ∧ wf_note n') ↔ 1 <= h <= 3)
  ∧ (¬ 1 <= h <= 3 →
     up_by n h scale_length
     = Raise (ValueError ("BadSizedScaleJumpError: " +:+ str_of_int h))).
Proof.
  intros Hn. pose proof Hn as (HL & _ & Ho).
  assert (¬ 1 <= h <= 3 →
          up_by n h scale_length
          = Raise (ValueError ("BadSizedScaleJumpError: " +:+ str_of_int h))) as Hbad.
  { intros Hh. unfold up_by.
    replace (negb ((1 <=? h) && (h <=? 3))) with true; [done|]. zbool; done. }
  split; [|done]. split.
  - intros (n' & Hup & _). destruct (decide (1 <= h <= 3)) as [|Hh]; [done|].
    rewrite (Hbad Hh) in Hup. done.
  - intros Hh. destruct (decide (scale_length = 7)) as [->|Hlen].
    + eexists. split; [by apply up_by_7|].
      apply wf_note_mk; [by apply next_in_alphabet_valid|].
      case_bool_decide; [|done]. destruct (Z.eqb_spec (octave n) 9); lia.
    + eexists. split; [by apply up_by_other|]. by apply wf_note_mk.
Qed.

Lemma up_by_succeeds_iff_witness :
  ((∃ n', up_by (mkNote "B" "#" 9) 4 7 = Ok n' ∧ wf_note n') ↔ 1 <= 4 <= 3)
  ∧ (¬ 1 <= 4 <= 3 →
     up_by (mkNote "B" "#" 9) 4 7 = Raise (ValueError "BadSizedScaleJumpError: 4")).
Proof.
  apply (up_by_succeeds_iff (mkNote "B" "#" 9) 4 7).
  repeat split; by vm_compute.
Defined.

(** X3.  From a B of octave 9 a step of a 7-letter scale leads to the C of
    octave 0: the octave 10 is written into the string of the new note and
    only its last digit is read back. *)
Theorem up_by_B9 (n : Note) (h : Z) :
  wf_note n → letter n = "B"%char → octave n = 9 → 1 <= h <= 3 →
  up_by n h 7 = Ok (mkNote "C" (accidental_string (get_sharp_flat n + h - 1)) 0).
Proof.
  intros Hn HB H9 Hh. rewrite (up_by_7 n h Hn Hh), HB, H9. done.
Qed.

Lemma up_by_B9_witness :
  up_by (mkNote "B" "b" 9) 3 7 = Ok (mkNote "C" "#" 0).
Proof.
  apply (up_by_B9 (mkNote "B" "b" 9) 3).
  - repeat split; by vm_compute.
  - reflexivity.
  - reflexivity.
  - lia.
Defined.

(** X4.  For every length of scale other than 7, also one that no scale
    has, [up_by] keeps the letter and the octave and adds the step to the
    accidental count. *)
Theorem up_by_other_lengths (n : Note) (h scale_length : Z) :
  wf_note n → 1 <= h <= 3 → scale_length ≠ 7 →
  ∃ n', up_by n h scale_length = Ok n'
    ∧ letter n' = letter n
    ∧ octave n' = octave n
    ∧ get_sharp_flat n' = get_sharp_flat n + h.
Proof.
  intros Hn Hh Hlen. eexists. split; [by apply up_by_other|].
  split; [done|]. split; [done|]. by rewrite get_sharp_flat_accidental_string.
Qed.

Lemma up_by_other_lengths_witness :
  ∃ n', up_by (mkNote "G" "b" 2) 3 (-4) = Ok n'
    ∧ letter n' = "G"%char
    ∧ octave n' = 2
    ∧ get_sharp_flat n' = -1 + 3.
Proof.
  apply (up_by_other_lengths (mkNote "G" "b" 2) 3 (-4)).
  - repeat split; by vm_compute.
  - lia.
  - lia.
Defined.

(** X5.  The lowest note of a clef has staff number 1, and a step of a
    7-letter scale leads to the next staff position, whatever the size of
    the step and the accidentals. *)
Theorem up_by_next_staff_position (n : Note) (h : Z) (clef : Clef) :
  wf_note n → 1 <= h <= 3 → letter n ≠ "B"%char ∨ octave n <= 8 →
  font_offset_number (lowest_note clef) clef = 1
  ∧ ∃ n', up_by n h 7 = Ok n'
      ∧ font_offset_number n' clef = font_offset_number n clef + 1.
Proof.
  intros Hn Hh Hb. pose proof Hn as (HL & _ & _).
  split; [unfold font_offset_number; change LETTERS_PER_OCTAVE with 7; lia|].
  eexists. split; [by apply up_by_7|].
  pose proof (staff_position_step (letter n) (octave n) HL) as Hstep.
  unfold font_offset_number. cbn [letter octave]. change LETTERS_PER_OCTAVE with 7.
  case_bool_decide as HB.
  - destruct Hb as [Hb|Hb]; [done|]. destruct (Z.eqb_spec (octave n) 9); lia.
  - lia.
Qed.

Lemma up_by_next_staff_position_witness :
  font_offset_number (mkNote "A" "" 3) (mkClef "Treble" 0xE0AE (mkNote "A" "" 3) [] []) = 1
  ∧ ∃ n', up_by (mkNote "B" "b" 3) 2 7 = Ok n'
      ∧ font_offset_number n' (mkClef "Treble" 0xE0AE (mkNote "A" "" 3) [] [])
        = font_offset_number (mkNote "B" "b" 3)
            (mkClef "Treble" 0xE0AE (mkNote "A" "" 3) [] []) + 1.
Proof.
  apply (up_by_next_staff_position (mkNote "B" "b" 3) 2
           (mkClef "Treble" 0xE0AE (mkNote "A" "" 3) [] [])).
  - repeat split; by vm_compute.
  - lia.
  - right. simpl. lia.
Defined.

(** ** Key signatures *)

Lemma slice_to_take {A} (k : Z) (l : list A) :
  0 <= k → slice_to k l = take (Z.to_nat k) l.
Proof.
  intros Hk. unfold slice_to, slice, slice_bound. zbool.
  replace (Z.to_nat (0 `min` Z.of_nat (length l))) with 0%nat by lia.
  rewrite drop_0.
  destruct (Z.le_gt_cases k (Z.of_nat (length l))).
  - f_equal. lia.
  - rewrite !take_ge by lia. done.
Qed.

Lemma slice_from_drop {A} (k : Z) (l : list A) :
  k < 0 → slice_from k l = drop (Z.to_nat (Z.of_nat (length l) + k)) l.
Proof.
  intros Hk. unfold slice_from, slice, slice_bound. zbool.
  replace (Z.to_nat (Z.max 0 (k + Z.of_nat (length l))))
    with (Z.to_nat (Z.of_nat (length l) + k)) by lia.
  apply take_ge. rewrite length_drop. lia.
Qed.

Lemma elem_of_drop_le {A} (x : A) (i j : nat) l :
  (j <= i)%nat → x ∈ drop i l → x ∈ drop j l.
Proof.
  intros Hij Hx. replace i with (j + (i - j))%nat in Hx by lia.
  rewrite <- drop_drop in Hx. by eapply subseteq_drop.
Qed.

Lemma elem_of_take_le {A} (x : A) (i j : nat) l :
  (i <= j)%nat → x ∈ take i l → x ∈ take j l.
Proof.
  intros Hij (k & Hk & Hki)%elem_of_take. apply elem_of_take. exists k. split; [done|lia].
Qed.

Lemma ORDER_OF_SHARPS_valid c : c ∈ chars ORDER_OF_SHARPS ↔ valid_letter c.
Proof.
  split.
  - intros H. repeat (apply elem_of_cons in H as [->|H]; [by vm_compute|]).
    by apply elem_of_nil in H.
  - intros H%valid_letter_cases.
    repeat (apply elem_of_cons in H as [->|H]; [by vm_compute;
      repeat (first [apply list_elem_of_here | apply list_elem_of_further])|]).
    by apply elem_of_nil in H.
Qed.

(** X6.  A key signature covers letters A..G only, and none when its count
    is 0; with seven or more sharps, or seven or more flats, it covers every
    letter. *)
Theorem KeySignature_contains_range (ks : KeySignature) (n : Note) :
  (KeySignature_contains ks n = true → sharps_flats ks ≠ 0 ∧ valid_letter (letter n))
  ∧ (valid_letter (letter n) → 7 <= Z.abs (sharps_flats ks) →
     KeySignature_contains ks n = true).
Proof.
  unfold KeySignature_contains. split.
  - destruct (Z.ltb_spec (sharps_flats ks) 0) as [Hk|Hk].
    + rewrite bool_decide_eq_true, slice_from_drop by done.
      intros H%subseteq_drop. split; [lia|]. by apply ORDER_OF_SHARPS_valid.
    + rewrite bool_decide_eq_true, slice_to_take by done. intros H. split.
      * intros H0. rewrite H0 in H. by apply elem_of_nil in H.
      * apply subseteq_take in H. by apply ORDER_OF_SHARPS_valid.
  - intros Hv Hk. apply ORDER_OF_SHARPS_valid in Hv.
    destruct (Z.ltb_spec (sharps_flats ks) 0) as [Hk0|Hk0]; apply bool_decide_eq_true.
    + rewrite slice_from_drop by done.
      replace (Z.to_nat _) with 0%nat by (change (length (chars ORDER_OF_SHARPS)) with 7%nat; lia).
      done.
    + rewrite slice_to_take, take_ge by (change (length (chars ORDER_OF_SHARPS)) with 7%nat; lia).
      done.
Qed.

(** X7.  A key signature with more sharps covers every letter that one with
    fewer sharps covers, and the same for flats. *)
Theorem KeySignature_contains_monotone (ks ks' : KeySignature) (n : Note) :
  0 <= sharps_flats ks <= sharps_flats ks' ∨ sharps_flats ks' <= sharps_flats ks < 0 →
  KeySignature_contains ks n = true → KeySignature_contains ks' n = true.
Proof.
  unfold KeySignature_contains. intros [Hk|Hk].
  - replace (sharps_flats ks <? 0) with false by (zbool; done).
    replace (sharps_flats ks' <? 0) with false by (zbool; done).
    rewrite !bool_decide_eq_true, !slice_to_take by lia.
    apply elem_of_take_le. lia.
  - replace (sharps_flats ks <? 0) with true by (zbool; done).
    replace (sharps_flats ks' <? 0) with true by (zbool; done).
    rewrite !bool_decide_eq_true, !slice_from_drop by lia.
    apply elem_of_drop_le. lia.
Qed.

Lemma KeySignature_contains_monotone_witness :
  KeySignature_contains (mkKeySignature (-5)) (mkNote "E" "b" 4) = true.
Proof.
  apply (KeySignature_contains_monotone (mkKeySignature (-2)) (mkKeySignature (-5))
           (mkNote "E" "b" 4)).
  - right. simpl. lia.
  - reflexivity.
Defined.

Lemma cmp_str_accidentals k :
  cmp_str (accidental_string k +:+ "A") "A" = - Z.sgn k.
Proof.
  destruct (Z.lt_trichotomy k 0) as [Hk|[->|Hk]].
  - rewrite (accidental_string_neg k Hk). by destruct k.
  - done.
  - rewrite (accidental_string_pos k Hk). by destruct k.
Qed.

(** X8.  The test [note ^ key_signature] raises KeyError, with the message
    NoteNotEffectedByKeySignatureError, exactly for a note that the key
    signature does not cover.  For a note it covers the test is False
    exactly when the note has sharps in a key signature of sharps, or flats
    in one of flats. *)
Theorem KeySignature_rxor_sign (ks : KeySignature) (n : Note) :
  wf_note n →
  (raises "KeyError" (KeySignature_rxor ks n) ↔ KeySignature_contains ks n = false)
  ∧ (raises "NoteNotEffectedByKeySignatureError" (KeySignature_rxor ks n)
     ↔ KeySignature_contains ks n = false)
  ∧ (KeySignature_contains ks n = true →
     KeySignature_rxor ks n
     = Ok (negb (Z.sgn (get_sharp_flat n) =? Z.sgn (sharps_flats ks)))).
Proof.
  intros (_ & Hsf & _). unfold KeySignature_rxor.
  destruct (KeySignature_contains ks n); cbn [negb].
  - split; [done|]. split; [done|]. intros _.
    rewrite Hsf, cmp_str_accidentals. unfold cmp_int. f_equal.
    destruct (sharps_flats ks), (get_sharp_flat n); reflexivity.
  - split; [|split; [|done]]; split; try done; intros _; by vm_compute.
Qed.

Lemma KeySignature_rxor_sign_witness :
  (raises "KeyError" (KeySignature_rxor (mkKeySignature 2) (mkNote "C" "#" 4))
   ↔ KeySignature_contains (mkKeySignature 2) (mkNote "C" "#" 4) = false)
  ∧ (raises "NoteNotEffectedByKeySignatureError"
       (KeySignature_rxor (mkKeySignature 2) (mkNote "C" "#" 4))
     ↔ KeySignature_contains (mkKeySignature 2) (mkNote "C" "#" 4) = false)
  ∧ (KeySignature_contains (mkKeySignature 2) (mkNote "C" "#" 4) = true →
     KeySignature_rxor (mkKeySignature 2) (mkNote "C" "#" 4) = Ok false).
Proof.
  apply (KeySignature_rxor_sign (mkKeySignature 2) (mkNote "C" "#" 4)).
  repeat split; by vm_compute.
Defined.

(** ** The string form of a note *)

(** X9.  On the staff of a clef a note is drawn as its accidentals followed
    by the note, all at its staff position.  A note that the key signature
    covers has no accidentals drawn when its sharps or flats are of the
    kind of the key signature, however many it has; otherwise it has a
    natural sign, if it is natural, or its own sharps or flats.  A note that
    the key signature does not cover has its own sharps or flats and never a
    natural sign. *)
Theorem string_form_on_staff (n : Note) (ks : KeySignature) (clef : Clef)
    (with_octave : bool) :
  wf_note n → wf_note (lowest_note clef) →
  string_form n (Some clef) ks with_octave
  = Ok ((if KeySignature_contains ks n
            && (Z.sgn (get_sharp_flat n) =? Z.sgn (sharps_flats ks))
         then []
         else if (get_sharp_flat n =? 0) then
           if KeySignature_contains ks n
           then [NATURALS_START + font_offset_number n clef] else []
         else replicate (Z.abs_nat (get_sharp_flat n))
                ((if 0 <? get_sharp_flat n then SHARPS_START else FLATS_START)
                 + font_offset_number n clef))
        ++ [NOTES_START + font_offset_number n clef]).
Proof.
  intros Hn Hc. pose proof (font_offset_number_bounds n clef Hn Hc) as Hb.
  unfold string_form.
  destruct (KeySignature_contains ks n) eqn:Hin; cbn [andb].
  - unfold KeySignature_rxor. rewrite Hin. cbn [negb mbind result_bind].
    destruct Hn as (HL & Hsf & Ho).
    rewrite Hsf at 1. rewrite cmp_str_accidentals.
    assert ((- - Z.sgn (get_sharp_flat n) =? cmp_int (sharps_flats ks) 0)
            = (Z.sgn (get_sharp_flat n) =? Z.sgn (sharps_flats ks))) as ->.
    { unfold cmp_int. destruct (sharps_flats ks), (get_sharp_flat n); reflexivity. }
    destruct (Z.sgn (get_sharp_flat n) =? Z.sgn (sharps_flats ks)); cbn [negb].
    + cbn [mbind result_bind].
      rewrite chr_in_range by (unfold NOTES_START; lia). done.
    + rewrite (accidentals_symbols_wf n clef true) by done. cbn [mbind result_bind].
      rewrite chr_in_range by (unfold NOTES_START; lia). done.
  - rewrite (accidentals_symbols_wf n clef false) by done. cbn [mbind result_bind].
    rewrite chr_in_range by (unfold NOTES_START; lia). cbn [mbind result_bind].
    by destruct (get_sharp_flat n =? 0).
Qed.

Lemma string_form_on_staff_witness :
  string_form (mkNote "F" "##" 4)
    (Some (mkClef "Treble" 0xE0AE (mkNote "A" "" 3) [] [])) (mkKeySignature 1) false
  = Ok [0xE000 + 6].
Proof.
  apply (string_form_on_staff (mkNote "F" "##" 4) (mkKeySignature 1)
           (mkClef "Treble" 0xE0AE (mkNote "A" "" 3) [] []) false).
  - repeat split; by vm_compute.
  - repeat split; by vm_compute.
Defined.

Lemma slice_to_neg {A} (k : Z) (l : list A) :
  k < 0 → slice_to k l = take (Z.to_nat (Z.of_nat (length l) + k)) l.
Proof.
  intros Hk. unfold slice_to, slice, slice_bound. zbool.
  replace (Z.to_nat (0 `min` Z.of_nat (length l))) with 0%nat by lia.
  rewrite drop_0. f_equal. lia.
Qed.

(** X10.  Without a clef the string form of a Note is the text of [str]
    when the octave is asked for, and its letter and accidentals only when
    not: the two characters cut from the end are the space and the one
    digit of the octave. *)
Theorem string_form_text (n : Note) (ks : KeySignature) :
  wf_note n →
  string_form n None ks true = Ok (ustr_of (Note_str n))
  ∧ string_form n None ks false = Ok (ustr_of (String (letter n) (sharp_flat n))).
Proof.
  intros (_ & _ & Ho). unfold string_form. cbn [negb].
  rewrite of_chars_chars. split; [done|]. do 2 f_equal.
  destruct (str_of_int_digit (octave n) Ho) as (c & Hc & _).
  unfold Note_str. rewrite Hc.
  apply chars_inj. rewrite chars_of_chars.
  replace (chars (String (letter n) (sharp_flat n) +:+ " " +:+ String c ""))
    with (chars (String (letter n) (sharp_flat n)) ++ [" "%char; c])
    by (by rewrite !chars_app).
  rewrite slice_to_neg by lia. apply take_app_length'.
  rewrite length_app. simpl. lia.
Qed.

Lemma string_form_text_witness :
  string_form (mkNote "A" "bb" 3) None KeySignature_default true
  = Ok (ustr_of "Abb 3")
  ∧ string_form (mkNote "A" "bb" 3) None KeySignature_default false
    = Ok (ustr_of "Abb").
Proof.
  apply (string_form_text (mkNote "A" "bb" 3) KeySignature_default).
  repeat split; by vm_compute.
Defined.

(** ** Scale types *)

Lemma elem_of_range (n : nat) (o : Z) : o ∈ range n ↔ 0 <= o < Z.of_nat n.
Proof.
  unfold range. rewrite list_elem_of_fmap. split.
  - intros (i & -> & Hi%elem_of_seq). lia.
  - intros Ho. exists (Z.to_nat o). split; [lia|]. apply elem_of_seq. lia.
Qed.

Lemma possible_starts_octaves (starts : gset string) (ps : string) (octaves : list Z) s :
  s ∈ foldl (fun starts octave => starts ∪ {[ ps +:+ str_of_int octave ]}) starts octaves
  ↔ s ∈ starts ∨ ∃ o, o ∈ octaves ∧ s = ps +:+ str_of_int o.
Proof.
  revert starts. induction octaves as [|o octaves IH]; intros starts; simpl.
  - split; [by left|]. intros [?|(o & Ho & _)]; [done|]. by apply elem_of_nil in Ho.
  - rewrite IH, elem_of_union, elem_of_singleton. split.
    + intros [[? | ->] | (o' & Ho' & ->)]; [by left| |].
      * right. exists o. split; [apply list_elem_of_here|done].
      * right. exists o'. split; [by apply list_elem_of_further|done].
    + intros [?|(o' & Ho' & ->)]; [by left; left|].
      apply elem_of_cons in Ho' as [->|Ho']; [by left; right|].
      right. by exists o'.
Qed.

(** X11.  The possible starts of a scale type are its starts without octave,
    each with the digit of an octave from 0 to 8, and nothing else. *)
Theorem ScaleInfo_possible_starts (nm p : string) (octaveless : list string) (s : string) :
  s ∈ possible_starts (ScaleInfo_new nm p octaveless)
  ↔ ∃ ps o, ps ∈ octaveless ∧ 0 <= o <= 8 ∧ s = ps +:+ str_of_int o.
Proof.
  unfold ScaleInfo_new, ScaleInfo_post_init. cbn [possible_starts possible_starts_octaveless].
  assert (∀ starts : gset string,
    s ∈ foldl (fun starts possible_start =>
                 foldl (fun starts octave =>
                          starts ∪ {[ possible_start +:+ str_of_int octave ]})
                       starts (range 9)) starts octaveless
    ↔ s ∈ starts ∨ ∃ ps o, ps ∈ octaveless ∧ 0 <= o <= 8 ∧ s = ps +:+ str_of_int o)
    as H.
  { induction octaveless as [|ps l IH]; intros starts; cbn [foldl].
    - split; [by left|]. intros [?|(ps & o & Hps & _)]; [done|].
      by apply elem_of_nil in Hps.
    - rewrite IH, possible_starts_octaves. split.
      + intros [[?|(o & Ho%elem_of_range & ->)]|(ps' & o & Hps & Ho & ->)]; [by left| |].
        * right. exists ps, o. split; [apply list_elem_of_here|]. split; [lia|done].
        * right. exists ps', o. split; [by apply list_elem_of_further|done].
      + intros [?|(ps' & o & Hps & Ho & ->)]; [by left; left|].
        apply elem_of_cons in Hps as [->|Hps].
        * left. right. exists o. split; [apply elem_of_range; lia|done].
        * right. by exists ps', o. }
  rewrite H. split; [|by right]. intros [Hs|?]; [|done]. by apply not_elem_of_empty in Hs.
Qed.

(** ** The catalogues, and what the generator of scales needs of them *)

Lemma index_in_range {A} (l : list A) (i : Z) :
  0 <= i < Z.of_nat (length l) → ∃ x, index l i = Ok x ∧ x ∈ l.
Proof.
  intros Hi. unfold index. zbool.
  destruct (l !! Z.to_nat i) as [x|] eqn:Hx.
  - exists x. split; [done|]. by eapply list_elem_of_lookup_2.
  - apply lookup_ge_None in Hx. lia.
Qed.

Lemma choice_gen_Ok {A} (l : list A) tape :
  l ≠ [] → ∃ x tape', choice_gen l tape = Ok (x, tape') ∧ x ∈ l.
Proof.
  intros Hl.
  assert (∀ pick, ∃ x, choice pick l = Ok x ∧ x ∈ l) as Hchoice.
  { intros pick. destruct l as [|y l]; [done|]. unfold choice.
    apply index_in_range. split; [lia|].
    apply Nat2Z.inj_lt, Nat.mod_upper_bound. done. }
  unfold choice_gen. destruct tape as [|pick tape].
  - destruct (Hchoice 0%nat) as (x & -> & Hx). by exists x, [].
  - destruct (Hchoice pick) as (x & -> & Hx). by exists x, tape.
Qed.

Lemma elements_nonempty (X : gset string) x : x ∈ X → elements X ≠ [].
Proof. intros Hx Hnil. apply elem_of_elements in Hx. rewrite Hnil in Hx. by apply elem_of_nil in Hx. Qed.

(** A name with a key is the name of the scale type of that key. *)
Lemma SCALE_TYPE_KEYS_lookup nm key :
  SCALE_TYPE_KEYS !! nm = Some key →
  ∃ st, In (key, st) SCALE_TYPE_INFO_items ∧ name st = nm.
Proof.
  unfold SCALE_TYPE_KEYS.
  assert (∀ (l : list (string * ScaleInfo)) (keys : gmap string string),
    foldl (fun keys item => <[ name item.2 := item.1 ]> keys) keys l !! nm = Some key →
    keys !! nm = Some key ∨ ∃ st, In (key, st) l ∧ name st = nm) as H.
  { induction l as [|[k st] l IH]; intros keys; cbn [foldl]; [by left|].
    intros [Hk|(st' & Hst' & Hn)]%IH.
    - cbn [fst snd] in Hk. apply lookup_insert_Some in Hk as [[<- <-]|[_ Hk]].
      + right. exists st. split; [by left|done].
      + by left.
    - right. exists st'. split; [by right|done]. }
  intros [Hk|?]%H; [|done]. by rewrite lookup_empty in Hk.
Qed.

Lemma SCALE_TYPE_INFO_lookup key st :
  In (key, st) SCALE_TYPE_INFO_items → SCALE_TYPE_INFO !! key = Some st.
Proof.
  intros H. apply elem_of_list_to_map_1; [|by apply list_elem_of_In].
  cbn [fmap list_fmap SCALE_TYPE_INFO_items fst].
  apply (bool_decide_unpack _). by vm_compute.
Qed.

Lemma CLEFS_lookup c clef : CLEFS !! c = Some clef → In (c, clef) CLEFS_items.
Proof. intros H. by apply list_elem_of_In, elem_of_list_to_map_2. Qed.

Lemma CLEFS_items_wf c clef :
  In (c, clef) CLEFS_items → wf_note (lowest_note clef) ∧ octave (lowest_note clef) <= 7.
Proof.
  intros H. repeat (destruct H as [[= <- <-]|H]; [repeat split; by vm_compute|]).
  done.
Qed.

Lemma SCALE_TYPE_INFO_items_steps key st :
  In (key, st) SCALE_TYPE_INFO_items →
  length (int_from_pattern <$> chars (pattern st)) = 7%nat
  ∧ ensure_octave (int_from_pattern <$> chars (pattern st)) = true
  ∧ Forall (fun h => 1 <= h <= 3) (int_from_pattern <$> chars (pattern st)).
Proof.
  intros H.
  repeat (destruct H as [[= <- <-]|H];
    [split; [reflexivity|]; split; [reflexivity|]; repeat constructor; by vm_compute|]).
  done.
Qed.

(** Every note of a clef is a string that the constructor of Note accepts. *)
Lemma all_notes_parse clef world s :
  wf_note (lowest_note clef) → octave (lowest_note clef) <= 7 →
  0 <= max_low_ledger_positions (settings world) <= 4 →
  0 <= max_high_ledger_positions (settings world) <= 4 →
  s ∈ all_notes clef world → ∃ n, Note_init s = Ok n ∧ wf_note n.
Proof.
  intros (Hc & _ & Ho) Ho7 Hlow Hhigh. unfold all_notes.
  rewrite elem_of_list_to_set, all_notes_list_window by done.
  replace (30 - 3 * Z.to_nat (4 - max_high_ledger_positions (settings world)))%nat
    with (3 * (10 - Z.to_nat (4 - max_high_ledger_positions (settings world))))%nat by lia.
  rewrite staff_walk_window by lia.
  intros (l & Hs & Hl)%list_elem_of_join.
  apply list_elem_of_fmap in Hl as (i & -> & Hi). apply elem_of_seq in Hi.
  destruct (staff_position_after i _ (octave (lowest_note clef)) Hc) as [Hv _].
  pose proof (octave_crossings_bound (letter (lowest_note clef)) i Hc) as Hcross.
  assert (i < 10)%nat as Hi10 by lia. specialize (Hcross Hi10).
  destruct (Note_init_spelling (letter_after i (letter (lowest_note clef)))
              (octave (lowest_note clef)
               + octave_crossings (letter (lowest_note clef)) i) s)
    as [acc Hn]; [done|lia|done|].
  eexists. split; [exact Hn|]. by eapply Note_init_wf.
Qed.

(** ** The constructor of Scale *)

Lemma gen_ret_Ok {A} (a b : A) (tape tape' : list nat) :
  (mret a : Gen A) tape = Ok (b, tape') → b = a ∧ tape' = tape.
Proof. by intros [= -> ->]. Qed.

Lemma Scale_init_explicit_eq world (st : ScaleInfo) (start clef_name : string)
    (tape : list nat) :
  Scale_init world (Some st) (Some start) (Some clef_name) tape
  = if ensure_octave (int_from_pattern <$> chars (pattern st)) then
      match Note_init start with
      | Ok n =>
          match CLEFS !! clef_name with
          | Some c => Ok (mkScale (int_from_pattern <$> chars (pattern st)) n c, tape)
          | None => Raise (KeyError clef_name)
          end
      | Raise e => Raise e
      end
    else Raise (Exception ("InvalidScaleSizeError: " +:+ pattern st)).
Proof.
  unfold Scale_init, choose_scale_type, choose_clef, choose_starts_on.
  unfold mbind, gen_bind, mret, gen_ret, lift, getitem.
  destruct (ensure_octave _); [|done]. destruct (Note_init start); [|done].
  by destruct (CLEFS !! clef_name).
Qed.

(** X12.  With the scale type, the start and the clef all given, the
    constructor of Scale draws no random number and does not look at the
    settings: it makes a Scale exactly when the steps of the pattern sum to
    12, the start is a note string and the clef is one of CLEFS.  A pattern
    of another sum raises InvalidScaleSizeError before the start and the
    clef are looked at. *)
Theorem Scale_init_explicit world (st : ScaleInfo) (start clef_name : string)
    (tape : list nat) :
  (∀ sc tape',
     Scale_init world (Some st) (Some start) (Some clef_name) tape = Ok (sc, tape')
     ↔ tape' = tape
       ∧ sum (int_from_pattern <$> chars (pattern st)) = 12
       ∧ scale_pattern sc = int_from_pattern <$> chars (pattern st)
       ∧ Note_init start = Ok (starts_on sc)
       ∧ CLEFS !! clef_name = Some (scale_clef sc))
  ∧ (sum (int_from_pattern <$> chars (pattern st)) ≠ 12 →
     Scale_init world (Some st) (Some start) (Some clef_name) tape
     = Raise (Exception ("InvalidScaleSizeError: " +:+ pattern st))).
Proof.
  rewrite Scale_init_explicit_eq. unfold ensure_octave.
  destruct (Z.eqb_spec (sum (int_from_pattern <$> chars (pattern st))) 12) as [Hsum|Hsum].
  - split; [|done]. intros [p n c] tape'. cbn [scale_pattern starts_on scale_clef].
    destruct (Note_init start) as [n'|e]; [|split; [done|by intros (_ & _ & _ & ? & _)]].
    destruct (CLEFS !! clef_name) as [c'|];
      [|split; [done|by intros (_ & _ & _ & _ & ?)]].
    split.
    + by intros [= <- <- <- <-].
    + by intros (-> & _ & -> & [= ->] & [= ->]).
  - split; [|done]. intros sc tape'. split; [done|]. by intros (_ & ? & _).
Qed.

(** X13.  A Scale that the constructor made by its own three choices has the
    pattern of a scale type of the catalogue whose name is enabled in the
    settings, a clef of CLEFS whose name is enabled, and a start that is a
    possible start of the scale type and a note of the clef. *)
Theorem Scale_init_generated world (tape : list nat) (sc : Scale) (tape' : list nat) :
  Scale_init world None None None tape = Ok (sc, tape') →
  ∃ key st clef_name start,
    In (key, st) SCALE_TYPE_INFO_items
    ∧ name st ∈ scale_types (settings world)
    ∧ clef_name ∈ clefs (settings world)
    ∧ CLEFS !! clef_name = Some (scale_clef sc)
    ∧ scale_pattern sc = int_from_pattern <$> chars (pattern st)
    ∧ start ∈ possible_starts st
    ∧ start ∈ all_notes (scale_clef sc) world
    ∧ Note_init start = Ok (starts_on sc).
Proof.
  intros H.
  destruct (Scale_init_start_possible _ _ _ _ _ _ H)
    as (st & tape1 & start & Hst & [Hposs Hall]%elem_of_intersection & Hn).
  apply Scale_init_Ok in H
    as (st' & clef_name & _ & tape1' & tape2 & Hst' & Hclef & _ & Hp & _ & _ & Hthe).
  rewrite Hst in Hst'. injection Hst' as <- <-.
  unfold choose_scale_type in Hst.
  apply gen_bind_Ok in Hst as (chosen & t1 & Hchosen & Hst).
  apply gen_bind_Ok in Hst as (key & t2 & Hkey & Hinfo).
  apply lift_Ok in Hkey as [Hkey%getitem_Ok ->].
  apply lift_Ok in Hinfo as [Hinfo%getitem_Ok ->].
  apply choice_gen_elem, elem_of_elements, elem_of_intersection in Hchosen
    as [Hen%elem_of_list_to_set _].
  destruct (SCALE_TYPE_KEYS_lookup _ _ Hkey) as (st' & Hitem & Hname).
  rewrite (SCALE_TYPE_INFO_lookup _ _ Hitem) in Hinfo. injection Hinfo as ->.
  apply choice_gen_elem, elem_of_elements, elem_of_intersection in Hclef
    as [Hcen%elem_of_list_to_set _].
  exists key, st, clef_name, start. rewrite Hname. done.
Qed.

Lemma Scale_init_generated_witness :
  ∃ key st clef_name start,
    In (key, st) SCALE_TYPE_INFO_items
    ∧ name st ∈ scale_types DEFAULT_CONFIG
    ∧ clef_name ∈ clefs DEFAULT_CONFIG
    ∧ CLEFS !! clef_name
      = Some (mkClef "Treble" 0xE0AE (mkNote "A" "" 3)
                [false; true; false; false; true; false]
                [false; true; false; true; false; true])
    ∧ [2; 2; 1; 2; 2; 2; 1] = int_from_pattern <$> chars (pattern st)
    ∧ start ∈ possible_starts st
    ∧ start ∈ all_notes (mkClef "Treble" 0xE0AE (mkNote "A" "" 3)
                           [false; true; false; false; true; false]
                           [false; true; false; true; false; true])
                (mkWorld DEFAULT_CONFIG)
    ∧ Note_init start = Ok (mkNote "C" "" 4).
Proof.
  apply (Scale_init_generated (mkWorld DEFAULT_CONFIG) [1; 1; 7]%nat
           (mkScale [2; 2; 1; 2; 2; 2; 1] (mkNote "C" "" 4)
              (mkClef "Treble" 0xE0AE (mkNote "A" "" 3)
                 [false; true; false; false; true; false]
                 [false; true; false; true; false; true])) []).
  vm_compute. reflexivity.
Defined.

(** X14.  When no enabled name of a scale type is in the catalogue, or no
    enabled name of a clef is in CLEFS, the constructor that is to choose
    raises IndexError: an enabled list of unknown names counts as an empty
    one. *)
Theorem Scale_init_nothing_enabled world (st : ScaleInfo) (starts clef : option string)
    (tape : list nat) :
  ((∀ nm, nm ∈ scale_types (settings world) → SCALE_TYPE_KEYS !! nm = None) →
   Scale_init world None starts clef tape = Raise IndexError)
  ∧ ((∀ c, c ∈ clefs (settings world) → CLEFS !! c = None) →
     Scale_init world (Some st) starts None tape = Raise IndexError).
Proof.
  split; intros Hnone; unfold Scale_init.
  - apply gen_bind_Raise. unfold choose_scale_type. apply gen_bind_Raise.
    replace (list_to_set (scale_types (settings world)) ∩ dom SCALE_TYPE_KEYS)
      with (∅ : gset string); [by rewrite elements_empty, choice_gen_nil|].
    symmetry. apply set_eq. intros nm. split; [|by intros ?%not_elem_of_empty].
    intros [Hen%elem_of_list_to_set Hdom%elem_of_dom]%elem_of_intersection.
    rewrite (Hnone nm Hen) in Hdom. by destruct Hdom.
  - cbn [choose_scale_type]. rewrite (gen_bind_eq _ _ tape st tape) by done. cbv zeta.
    apply gen_bind_Raise. unfold choose_clef.
    replace (list_to_set (clefs (settings world)) ∩ dom CLEFS)
      with (∅ : gset string); [by rewrite elements_empty, choice_gen_nil|].
    symmetry. apply set_eq. intros c. split; [|by intros ?%not_elem_of_empty].
    intros [Hen%elem_of_list_to_set Hdom%elem_of_dom]%elem_of_intersection.
    rewrite (Hnone c Hen) in Hdom. by destruct Hdom.
Qed.

(** ** The sheet music of a Scale *)

Lemma up_by_closed n h scale_length :
  wf_note n → 1 <= h <= 3 → ∃ n', up_by n h scale_length = Ok n' ∧ wf_note n'.
Proof.
  intros Hn Hh. pose proof Hn as (HL & _ & Ho).
  destruct (decide (scale_length = 7)) as [->|Hlen].
  - eexists. split; [by apply up_by_7|].
    apply wf_note_mk; [by apply next_in_alphabet_valid|].
    case_bool_decide; [|done]. destruct (Z.eqb_spec (octave n) 9); lia.
  - eexists. split; [by apply up_by_other|]. by apply wf_note_mk.
Qed.

Lemma string_form_default_Ok n clef :
  wf_note n → wf_note (lowest_note clef) →
  ∃ form, string_form n (Some clef) KeySignature_default false = Ok form.
Proof.
  intros Hn Hc. pose proof (font_offset_number_bounds n clef Hn Hc) as Hb.
  unfold string_form. rewrite KeySignature_default_contains.
  rewrite (accidentals_symbols_wf n clef false Hn Hc). cbn [mbind result_bind].
  rewrite chr_in_range by (unfold NOTES_START; lia). by eexists.
Qed.

(** The notes along a pattern of steps 1..3 exist, and are Notes of the
    constructor. *)
Lemma notes_from_Ok steps : ∀ n scale_length,
  wf_note n → Forall (fun h => 1 <= h <= 3) steps →
  ∃ notes, notes_from n steps scale_length = Ok notes
    ∧ length notes = S (length steps) ∧ Forall wf_note notes.
Proof.
  induction steps as [|h steps IH]; intros n len Hn Hsteps.
  - exists [n]. split; [done|]. split; [done|]. by constructor.
  - apply Forall_cons in Hsteps as [Hh Hsteps].
    destruct (up_by_closed n h len Hn Hh) as (n' & Hup & Hn').
    destruct (IH n' len Hn' Hsteps) as (notes & Hnotes & Hlen & Hwf).
    exists (n :: notes). cbn [notes_from]. rewrite Hup. cbn [mbind result_bind].
    rewrite Hnotes. cbn [mbind result_bind]. split; [done|].
    split; [simpl; lia|]. by constructor.
Qed.

(** The loop of [__str__] writes the string forms of the notes along the
    steps; the note after the last step is computed and not written. *)
Lemma Scale_str_loop_notes steps : ∀ n acc notes scale_length clef h,
  wf_note n → wf_note (lowest_note clef) →
  Forall (fun h => 1 <= h <= 3) steps → 1 <= h <= 3 →
  notes_from n steps scale_length = Ok notes →
  ∃ forms,
    Forall2 (fun m form => string_form m (Some clef) KeySignature_default false = Ok form)
      notes forms
    ∧ Scale_str_loop (steps ++ [h]) scale_length clef n acc = Ok (acc ++ mjoin forms).
Proof.
  induction steps as [|s steps IH]; intros n acc notes len clef h Hn Hc Hsteps Hh Hnotes.
  - injection Hnotes as <-.
    destruct (string_form_default_Ok n clef Hn Hc) as (form & Hform).
    destruct (up_by_closed n h len Hn Hh) as (n' & Hup & _).
    exists [form]. split; [by repeat constructor|].
    cbn [app Scale_str_loop]. rewrite Hform, Hup. cbn [mbind result_bind].
    change (mjoin [form]) with (form ++ []). by rewrite app_nil_r.
  - apply Forall_cons in Hsteps as [Hs Hsteps].
    destruct (string_form_default_Ok n clef Hn Hc) as (form & Hform).
    destruct (up_by_closed n s len Hn Hs) as (n' & Hup & Hn').
    cbn [notes_from] in Hnotes. rewrite Hup in Hnotes. cbn [mbind result_bind] in Hnotes.
    destruct (notes_from n' steps len) as [rest|] eqn:Hrest; [|done].
    injection Hnotes as <-.
    destruct (IH n' (acc ++ form) rest len clef h Hn' Hc Hsteps Hh Hrest)
      as (forms & Hforms & Hloop).
    exists (form :: forms). split; [by constructor|].
    change ((s :: steps) ++ [h]) with (s :: (steps ++ [h])).
    cbn [Scale_str_loop]. rewrite Hform, Hup. cbn [mbind result_bind].
    rewrite Hloop, <- app_assoc. done.
Qed.

(** X15.  The sheet music of a Scale whose start is a Note of the
    constructor and whose steps are all 1, 2 or 3 is the sign of the clef
    followed by the string forms, under the default key signature, of the
    notes along the pattern, the note an octave above the start being the
    last; the step of 2 that the loop adds at the end is not seen. *)
Theorem Scale_str_notes (sc : Scale) :
  wf_note (starts_on sc) → wf_note (lowest_note (scale_clef sc)) →
  Forall (fun h => 1 <= h <= 3) (scale_pattern sc) →
  ∃ notes forms,
    notes_from (starts_on sc) (scale_pattern sc) (Z.of_nat (length (scale_pattern sc)))
    = Ok notes
    ∧ length notes = S (length (scale_pattern sc))
    ∧ Forall2 (fun m form =>
                 string_form m (Some (scale_clef sc)) KeySignature_default false = Ok form)
        notes forms
    ∧ Scale_str sc = Ok (symbol (scale_clef sc) :: mjoin forms).
Proof.
  intros Hn Hc Hsteps.
  destruct (notes_from_Ok (scale_pattern sc) (starts_on sc)
              (Z.of_nat (length (scale_pattern sc))) Hn Hsteps)
    as (notes & Hnotes & Hlen & _).
  destruct (Scale_str_loop_notes (scale_pattern sc) (starts_on sc)
              [symbol (scale_clef sc)] notes
              (Z.of_nat (length (scale_pattern sc))) (scale_clef sc) 2 Hn Hc Hsteps)
    as (forms & Hforms & Hloop); [lia|done|].
  exists notes, forms. done.
Qed.

Lemma Scale_str_notes_witness :
  ∃ notes forms,
    notes_from (mkNote "D" "" 4) [2; 2; 1; 2; 2; 2; 1] 7 = Ok notes
    ∧ length notes = 8%nat
    ∧ Forall2 (fun m form =>
                 string_form m (Some (mkClef "Treble" 0xE0AE (mkNote "A" "" 3) [] []))
                   KeySignature_default false = Ok form)
        notes forms
    ∧ Scale_str (mkScale [2; 2; 1; 2; 2; 2; 1] (mkNote "D" "" 4)
                   (mkClef "Treble" 0xE0AE (mkNote "A" "" 3) [] []))
      = Ok (0xE0AE :: mjoin forms).
Proof.
  apply (Scale_str_notes (mkScale [2; 2; 1; 2; 2; 2; 1] (mkNote "D" "" 4)
                            (mkClef "Treble" 0xE0AE (mkNote "A" "" 3) [] []))).
  - repeat split; by vm_compute.
  - repeat split; by vm_compute.
  - repeat constructor; by vm_compute.
Defined.

Lemma Scale_str_loop_bad_step before : ∀ n acc scale_length clef h after,
  wf_note n → wf_note (lowest_note clef) →
  Forall (fun h => 1 <= h <= 3) before → ¬ 1 <= h <= 3 →
  Scale_str_loop (before ++ h :: after) scale_length clef n acc
  = Raise (ValueError ("BadSizedScaleJumpError: " +:+ str_of_int h)).
Proof.
  induction before as [|s before IH]; intros n acc len clef h after Hn Hc Hbefore Hh.
  - destruct (string_form_default_Ok n clef Hn Hc) as (form & Hform).
    cbn [app Scale_str_loop]. rewrite Hform. cbn [mbind result_bind].
    unfold up_by. replace (negb ((1 <=? h) && (h <=? 3))) with true; [done|].
    zbool; done.
  - apply Forall_cons in Hbefore as [Hs Hbefore].
    destruct (string_form_default_Ok n clef Hn Hc) as (form & Hform).
    destruct (up_by_closed n s len Hn Hs) as (n' & Hup & Hn').
    change ((s :: before) ++ h :: after) with (s :: (before ++ h :: after)).
    cbn [Scale_str_loop]. rewrite Hform, Hup. cbn [mbind result_bind].
    by apply IH.
Qed.

(** X16.  The constructor of Scale takes any pattern whose steps sum to 12,
    also one with a character other than H, W and 3, which counts as a step
    of 0; of such a Scale no sheet music can be made: [__str__] raises
    ValueError, BadSizedScaleJumpError, at the first step that is not 1, 2
    or 3. *)
Theorem Scale_str_bad_step (sc : Scale) (before after : list Z) (h : Z) :
  wf_note (starts_on sc) → wf_note (lowest_note (scale_clef sc)) →
  scale_pattern sc = before ++ h :: after →
  Forall (fun h => 1 <= h <= 3) before → ¬ 1 <= h <= 3 →
  Scale_str sc = Raise (ValueError ("BadSizedScaleJumpError: " +:+ str_of_int h)).
Proof.
  intros Hn Hc Hp Hbefore Hh. unfold Scale_str. rewrite Hp, <- app_assoc.
  change ((h :: after) ++ [2]) with (h :: (after ++ [2])).
  by apply Scale_str_loop_bad_step.
Qed.

Lemma Scale_str_bad_step_witness :
  match Scale_init (mkWorld DEFAULT_CONFIG)
          (Some (ScaleInfo_new "Odd" "333x3" ["C"])) (Some "C4") (Some "Treble") [] with
  | Ok (sc, _) =>
      scale_pattern sc = [3; 3; 3; 0; 3]
      ∧ Scale_str sc = Raise (ValueError "BadSizedScaleJumpError: 0")
  | Raise _ => False
  end.
Proof.
  pose (sc := mkScale [3; 3; 3; 0; 3] (mkNote "C" "" 4)
                (mkClef "Treble" 0xE0AE (mkNote "A" "" 3)
                   [false; true; false; false; true; false]
                   [false; true; false; true; false; true])).
  assert (Scale_init (mkWorld DEFAULT_CONFIG)
            (Some (ScaleInfo_new "Odd" "333x3" ["C"])) (Some "C4") (Some "Treble") []
          = Ok (sc, [])) as -> by (vm_compute; reflexivity).
  split; [reflexivity|].
  apply (Scale_str_bad_step sc [3; 3; 3] [3] 0).
  - repeat split; by vm_compute.
  - repeat split; by vm_compute.
  - reflexivity.
  - repeat constructor; by vm_compute.
  - lia.
Defined.

(** ** The generator of scales *)

Lemma lift_getitem_Ok {V} (d : gmap string V) key v (tape : list nat) :
  d !! key = Some v → lift (getitem d key) tape = Ok (v, tape).
Proof. intros H. unfold lift, getitem. by rewrite H. Qed.

Lemma choose_scale_type_Ok world tape :
  (∃ nm, nm ∈ scale_types (settings world) ∧ is_Some (SCALE_TYPE_KEYS !! nm)) →
  ∃ key st tape1,
    choose_scale_type world None tape = Ok (st, tape1)
    ∧ In (key, st) SCALE_TYPE_INFO_items.
Proof.
  intros (nm & Hen & Hnm).
  assert (nm ∈ (list_to_set (scale_types (settings world)) ∩ dom SCALE_TYPE_KEYS
                : gset string)) as Hin
    by (apply elem_of_intersection; split;
        [by apply elem_of_list_to_set | by apply elem_of_dom]).
  destruct (choice_gen_Ok _ tape (elements_nonempty _ _ Hin))
    as (chosen & tape1 & Hch & Hchosen).
  apply elem_of_elements, elem_of_intersection in Hchosen as [_ [key Hkey]%elem_of_dom].
  destruct (SCALE_TYPE_KEYS_lookup _ _ Hkey) as (st & Hitem & _).
  exists key, st, tape1. split; [|done].
  unfold choose_scale_type.
  rewrite (gen_bind_eq _ _ _ _ _ Hch).
  rewrite (gen_bind_eq _ _ _ _ _ (lift_getitem_Ok _ _ _ _ Hkey)).
  by apply lift_getitem_Ok, SCALE_TYPE_INFO_lookup.
Qed.

Lemma choose_clef_Ok world tape :
  (∃ c, c ∈ clefs (settings world) ∧ is_Some (CLEFS !! c)) →
  ∃ clef_name the_clef tape1,
    choose_clef world None tape = Ok (clef_name, tape1)
    ∧ CLEFS !! clef_name = Some the_clef.
Proof.
  intros (c & Hen & Hc).
  assert (c ∈ (list_to_set (clefs (settings world)) ∩ dom CLEFS : gset string)) as Hin
    by (apply elem_of_intersection; split;
        [by apply elem_of_list_to_set | by apply elem_of_dom]).
  destruct (choice_gen_Ok _ tape (elements_nonempty _ _ Hin))
    as (chosen & tape1 & Hch & Hchosen).
  apply elem_of_elements, elem_of_intersection in Hchosen as [_ [the_clef Hthe]%elem_of_dom].
  by exists chosen, the_clef, tape1.
Qed.

Lemma choose_starts_on_Ok world st clef_name the_clef tape :
  CLEFS !! clef_name = Some the_clef →
  possible_starts st ∩ all_notes the_clef world ≠ ∅ →
  ∃ start tape1,
    choose_starts_on world st clef_name None tape = Ok (start, tape1)
    ∧ start ∈ all_notes the_clef world.
Proof.
  intros Hthe Hne. unfold choose_starts_on.
  rewrite (gen_bind_eq _ _ _ _ _ (lift_getitem_Ok _ _ _ tape Hthe)).
  destruct (choice_gen_Ok (elements (possible_starts st ∩ all_notes the_clef world)) tape)
    as (start & tape1 & Hch & Hstart).
  { intros Hnil. apply Hne. by apply leibniz_equiv, elements_empty_inv. }
  exists start, tape1. split; [done|].
  by apply elem_of_elements, elem_of_intersection in Hstart as [_ ?].
Qed.

(** X17.  When the settings enable at least one scale type of the catalogue
    and one clef of CLEFS, names that are not known being allowed beside
    them, and the ledger settings are in 0..4, the constructor of Scale
    never fails to choose: it returns a Scale of 7 steps that starts on a
    Note of the constructor, and the sheet music of that Scale can be
    made. *)
Theorem Scale_init_succeeds world (tape : list nat) :
  (∃ nm, nm ∈ scale_types (settings world) ∧ is_Some (SCALE_TYPE_KEYS !! nm)) →
  (∃ c, c ∈ clefs (settings world) ∧ is_Some (CLEFS !! c)) →
  0 <= max_low_ledger_positions (settings world) <= 4 →
  0 <= max_high_ledger_positions (settings world) <= 4 →
  ∃ sc tape',
    Scale_init world None None None tape = Ok (sc, tape')
    ∧ wf_note (starts_on sc)
    ∧ length (scale_pattern sc) = 7%nat
    ∧ ∃ text, Scale_str sc = Ok text.
Proof.
  intros Htypes Hclefs Hlow Hhigh.
  destruct (choose_scale_type_Ok world tape Htypes) as (key & st & tape1 & Hst & Hitem).
  destruct (choose_clef_Ok world tape1 Hclefs) as (clef_name & the_clef & tape2 & Hclef & Hthe).
  pose proof (CLEFS_lookup _ _ Hthe) as Hcitem.
  destruct (CLEFS_items_wf _ _ Hcitem) as [Hcwf Hc7].
  destruct (choose_starts_on_Ok world st clef_name the_clef tape2 Hthe)
    as (start & tape3 & Hstart & Hall).
  { by eapply catalogue_has_start. }
  destruct (all_notes_parse the_clef world start Hcwf Hc7 Hlow Hhigh Hall) as (n & Hn & Hnwf).
  destruct (SCALE_TYPE_INFO_items_steps _ _ Hitem) as (Hlen & Hoct & Hsteps).
  exists (mkScale (int_from_pattern <$> chars (pattern st)) n the_clef), tape3.
  split; [|split; [done|split; [done|]]].
  - unfold Scale_init.
    rewrite (gen_bind_eq _ _ _ _ _ Hst). cbv zeta.
    rewrite (gen_bind_eq _ _ _ _ _ Hclef).
    rewrite (gen_bind_eq _ _ _ _ _ Hstart).
    rewrite Hoct.
    rewrite (gen_bind_eq _ _ tape3 (int_from_pattern <$> chars (pattern st)) tape3) by done.
    rewrite (gen_bind_eq _ _ tape3 n tape3) by (unfold lift; by rewrite Hn).
    rewrite (gen_bind_eq _ _ _ _ _ (lift_getitem_Ok _ _ _ tape3 Hthe)).
    done.
  - destruct (notes_from_Ok (int_from_pattern <$> chars (pattern st)) n
                (Z.of_nat (length (int_from_pattern <$> chars (pattern st)))) Hnwf Hsteps)
      as (notes & Hnotes & _ & _).
    destruct (Scale_str_loop_notes (int_from_pattern <$> chars (pattern st)) n
                [symbol the_clef] notes
                (Z.of_nat (length (int_from_pattern <$> chars (pattern st))))
                the_clef 2 Hnwf Hcwf Hsteps)
      as (forms & _ & Hloop); [lia|done|].
    by eexists.
Qed.

Lemma Scale_init_succeeds_witness :
  ∃ sc tape',
    Scale_init (mkWorld (mkSettings ["Jazz"; "Dorian"] ["Alto"; "Bass"] 4 4 0 2))
      None None None [5; 8; 13]%nat = Ok (sc, tape')
    ∧ wf_note (starts_on sc)
    ∧ length (scale_pattern sc) = 7%nat
    ∧ ∃ text, Scale_str sc = Ok text.
Proof.
  apply (Scale_init_succeeds
           (mkWorld (mkSettings ["Jazz"; "Dorian"] ["Alto"; "Bass"] 4 4 0 2))
           [5; 8; 13]%nat).
  - exists "Dorian". split; [apply list_elem_of_further, list_elem_of_here|].
    exists "2". by vm_compute.
  - exists "Alto". split; [apply list_elem_of_here|]. eexists. by vm_compute.
  - simpl. lia.
  - simpl. lia.
Defined.

(** ** Settings *)


(** X19.  In the sub-menu of the ledger lines every key but escape leaves
    both ledger settings in 0..4 and the other settings as they were.  From
    settings in that range the key down on the left side allows one more
    low ledger position and the key up one less, the key up on the right
    side allows one more high ledger position and the key down one less,
    never going past 0 and 4; left and right change the side only. *)
Theorem ledger_lines_keyPressed_range (left : bool) (self : Settings) (key : string) :
  (ledger_lines_keyPressed left self key = None ↔ key = "escape")
  ∧ ∀ left' self',
      ledger_lines_keyPressed left self key = Some (left', self') →
      (0 <= max_low_ledger_positions self' <= 4
       ∧ 0 <= max_high_ledger_positions self' <= 4
       ∧ scale_types self' = scale_types self ∧ clefs self' = clefs self
       ∧ max_sharps_key_signature self' = max_sharps_key_signature self
       ∧ max_flats_key_signature self' = max_flats_key_signature self
       ∧ left' = (if bool_decide (key ∈ ["left"; "right"]) then negb left else left))
      ∧ (0 <= max_low_ledger_positions self <= 4 →
         0 <= max_high_ledger_positions self <= 4 →
         max_low_ledger_positions self'
         = (if left && bool_decide (key = "down")
            then Z.min (max_low_ledger_positions self + 1) 4
            else if left && bool_decide (key = "up")
            then Z.max (max_low_ledger_positions self - 1) 0
            else max_low_ledger_positions self)
         ∧ max_high_ledger_positions self'
           = (if negb left && bool_decide (key = "up")
              then Z.min (max_high_ledger_positions self + 1) 4
              else if negb left && bool_decide (key = "down")
              then Z.max (max_high_ledger_positions self - 1) 0
              else max_high_ledger_positions self)).
Proof.
  unfold ledger_lines_keyPressed. case_bool_decide as Hesc.
  { split; [done|]. intros ? ? [=]. }
  split; [done|]. intros left' self' [= <- <-].
  assert (key = "left" ∨ key = "right" ∨ key = "up" ∨ key = "down"
          ∨ ((key ∉ ["left"; "right"]) ∧ (key ∉ ["up"; "down"])
             ∧ key ≠ "up" ∧ key ≠ "down")) as Hkey.
  { destruct (decide (key = "left")); [by left|].
    destruct (decide (key = "right")); [by right; left|].
    destruct (decide (key = "up")); [by right; right; left|].
    destruct (decide (key = "down")); [by right; right; right; left|].
    right; right; right; right. repeat split; try done;
      intros H; repeat (apply elem_of_cons in H as [?|H]; [done|]);
      by apply elem_of_nil in H. }
  destruct self as [ts cs s f h l].
  cbn [scale_types clefs max_sharps_key_signature max_flats_key_signature
       max_high_ledger_positions max_low_ledger_positions].
  destruct Hkey as [->|[->|[->|[->|(H1 & H2 & H3 & H4)]]]].
  - destruct left; vm_compute bool_decide; cbn [negb andb];
      unfold validate_ledger_lines, pm_bool;
      cbn [scale_types clefs max_sharps_key_signature max_flats_key_signature
           max_high_ledger_positions max_low_ledger_positions];
      change LEDGER_LINES with 4; repeat split; lia.
  - destruct left; vm_compute bool_decide; cbn [negb andb];
      unfold validate_ledger_lines, pm_bool;
      cbn [scale_types clefs max_sharps_key_signature max_flats_key_signature
           max_high_ledger_positions max_low_ledger_positions];
      change LEDGER_LINES with 4; repeat split; lia.
  - destruct left; vm_compute bool_decide; cbn [negb andb];
      unfold validate_ledger_lines, pm_bool;
      cbn [scale_types clefs max_sharps_key_signature max_flats_key_signature
           max_high_ledger_positions max_low_ledger_positions];
      change LEDGER_LINES with 4; repeat split; lia.
  - destruct left; vm_compute bool_decide; cbn [negb andb];
      unfold validate_ledger_lines, pm_bool;
      cbn [scale_types clefs max_sharps_key_signature max_flats_key_signature
           max_high_ledger_positions max_low_ledger_positions];
      change LEDGER_LINES with 4; repeat split; lia.
  - rewrite !(bool_decide_false (key ∈ _)), !(bool_decide_false (key = _)) by done.
    rewrite !andb_false_r.
    destruct left; unfold validate_ledger_lines;
      cbn [scale_types clefs max_sharps_key_signature max_flats_key_signature
           max_high_ledger_positions max_low_ledger_positions];
      change LEDGER_LINES with 4; repeat split; lia.
Qed.

Lemma elem_of_list_remove x y l :
  y ∈ list_remove x l → y ∈ l.
Proof.
  induction l as [|z l IH]; cbn [list_remove]; [done|].
  case_bool_decide as Hz; [by apply list_elem_of_further|].
  intros [->|Hy]%elem_of_cons; [apply list_elem_of_here|].
  by apply list_elem_of_further, IH.
Qed.

Lemma elem_of_list_remove_ne x y l :
  y ≠ x → y ∈ l → y ∈ list_remove x l.
Proof.
  intros Hne. induction l as [|z l IH]; cbn [list_remove]; [done|].
  intros [->|Hy]%elem_of_cons.
  - rewrite bool_decide_false by done. apply list_elem_of_here.
  - case_bool_decide as Hz; [done|]. by apply list_elem_of_further, IH.
Qed.

Lemma NoDup_list_remove x l :
  NoDup l → NoDup (list_remove x l) ∧ x ∉ list_remove x l.
Proof.
  induction 1 as [|z l Hz Hl IH]; cbn [list_remove].
  - split; [constructor|apply not_elem_of_nil].
  - case_bool_decide as Hzx.
    + subst z. done.
    + destruct IH as [IH1 IH2]. split.
      * constructor; [|done]. intros H. by apply Hz, (elem_of_list_remove x).
      * intros [?|?]%elem_of_cons; [by subst|done].
Qed.

(** X20.  Toggling a name in a list without repetitions, as the settings
    menu does for clefs and scale types, leaves a list without repetitions
    in which the name is enabled exactly if it was not before, and every
    other name is as before. *)
Theorem toggle_flips (x : string) (l : list string) :
  NoDup l →
  NoDup (toggle x l)
  ∧ (x ∈ toggle x l ↔ x ∉ l)
  ∧ ∀ y, y ≠ x → (y ∈ toggle x l ↔ y ∈ l).
Proof.
  intros Hl. unfold toggle. case_bool_decide as Hx.
  - destruct (NoDup_list_remove x l Hl) as [H1 H2]. split; [done|]. split.
    + split; [done|]. by intros [].
    + intros y Hy. split; [apply elem_of_list_remove|by apply elem_of_list_remove_ne].
  - split; [|split].
    + apply NoDup_app. split; [done|]. split; [|apply NoDup_singleton].
      intros y Hy ->%list_elem_of_singleton. done.
    + split; [done|]. intros _. apply elem_of_app. right. apply list_elem_of_here.
    + intros y Hy. rewrite elem_of_app, list_elem_of_singleton.
      split; [by intros [?|?]|by left].
Qed.

Lemma toggle_flips_witness :
  NoDup (toggle "Bass" ["Treble"; "Bass"; "Alto"])
  ∧ ("Bass" ∈ toggle "Bass" ["Treble"; "Bass"; "Alto"] ↔ "Bass" ∉ ["Treble"; "Bass"; "Alto"])
  ∧ ∀ y, y ≠ "Bass" →
      (y ∈ toggle "Bass" ["Treble"; "Bass"; "Alto"] ↔ y ∈ ["Treble"; "Bass"; "Alto"]).
Proof.
  apply (toggle_flips "Bass" ["Treble"; "Bass"; "Alto"]).
  apply (bool_decide_unpack _). by vm_compute.
Defined.

(** X21.  The settings menu can switch off the last clef: after
    [toggle_clef] on the only enabled clef no clef is enabled, and a Scale
    that is to choose its clef then raises IndexError, since the menu does
    not validate the list of clefs. *)
Theorem toggle_clef_last (self : Settings) (clef_name : string) (st : ScaleInfo)
    (starts : option string) (tape : list nat) :
  clefs self = [clef_name] →
  clefs (toggle_clef self clef_name) = []
  ∧ Scale_init (mkWorld (toggle_clef self clef_name)) (Some st) starts None tape
    = Raise IndexError.
Proof.
  intros Hc.
  assert (clefs (toggle_clef self clef_name) = []) as Hnil.
  { unfold toggle_clef, toggle. cbn [clefs]. rewrite Hc.
    rewrite bool_decide_true by apply list_elem_of_here.
    cbn [list_remove]. by rewrite bool_decide_true. }
  split; [done|]. unfold Scale_init.
  cbn [choose_scale_type]. rewrite (gen_bind_eq _ _ tape st tape) by done. cbv zeta.
  apply gen_bind_Raise. unfold choose_clef. cbn [settings]. rewrite Hnil.
  replace (list_to_set [] ∩ dom CLEFS) with (∅ : gset string)
    by (symmetry; apply (left_absorb_L ∅ (∩))).
  by rewrite elements_empty, choice_gen_nil.
Qed.

Lemma toggle_clef_last_witness :
  clefs (toggle_clef (mkSettings ["Major"] ["Treble"] 4 4 4 4) "Treble") = []
  ∧ Scale_init (mkWorld (toggle_clef (mkSettings ["Major"] ["Treble"] 4 4 4 4) "Treble"))
      (Some (ScaleInfo_new "Major" "WWHWWWH" ["C"])) None None [3]%nat
    = Raise IndexError.
Proof.
  apply (toggle_clef_last (mkSettings ["Major"] ["Treble"] 4 4 4 4) "Treble"
           (ScaleInfo_new "Major" "WWHWWWH" ["C"]) None [3]%nat).
  reflexivity.
Defined.

Lemma sub_menu_names :
  NORMAL_SCALE_NAMES = ["Major"; "Natural Minor"; "Harmonic Minor"; "Melodic Minor"]
  ∧ CHURCH_MODES_KEYS = ["1"; "2"; "3"; "4"; "5"; "6"; "7"]
  ∧ CHURCH_MODES_NAMES
    = ["Ionian"; "Dorian"; "Phrygian"; "Lydian"; "Mixolydian"; "Aeolian"; "Lochrian"].
Proof. repeat split; by vm_compute. Qed.

(** A key of one of the two sub-menus of scale types is a key of the
    catalogue, and the name of its scale type is a name of the sub-menu. *)
Lemma sub_menu_key keys names key :
  (keys, names) = (NORMAL_SCALE_KEYS, NORMAL_SCALE_NAMES)
  ∨ (keys, names) = (CHURCH_MODES_KEYS, CHURCH_MODES_NAMES) →
  key ∈ keys →
  ∃ st, SCALE_TYPE_INFO !! key = Some st ∧ name st ∈ names.
Proof.
  destruct sub_menu_names as (Hn & Hk & Hc).
  assert (∀ k nm, (∃ st, In (k, st) SCALE_TYPE_INFO_items ∧ name st = nm) →
                  nm ∈ names →
                  ∃ st, SCALE_TYPE_INFO !! k = Some st ∧ name st ∈ names) as Hitem.
  { intros k nm (st & Hin & <-) Hnm. exists st. split; [|done].
    by apply SCALE_TYPE_INFO_lookup. }
  intros [[= -> ->]|[= -> ->]] Hkey.
  - rewrite Hn. unfold NORMAL_SCALE_KEYS in Hkey. rewrite Hn in Hitem.
    repeat (apply elem_of_cons in Hkey as [->|Hkey];
      [eapply Hitem;
       [eexists; split; [cbn; repeat (first [left; reflexivity | right]) | reflexivity]
       |repeat (first [apply list_elem_of_here | apply list_elem_of_further])]|]).
    by apply elem_of_nil in Hkey.
  - rewrite Hc. rewrite Hk in Hkey. rewrite Hc in Hitem.
    repeat (apply elem_of_cons in Hkey as [->|Hkey];
      [eapply Hitem;
       [eexists; split; [cbn; repeat (first [left; reflexivity | right]) | reflexivity]
       |repeat (first [apply list_elem_of_here | apply list_elem_of_further])]|]).
    by apply elem_of_nil in Hkey.
Qed.

(** X22.  In the sub-menus of the standard scales and of the church modes a
    key never raises an error; a key of the sub-menu toggles the name of
    its scale type in the enabled scale types, any other key changes
    nothing, and the clefs and the other settings stay as they are. *)
Theorem scales_keyPressed_toggles (keys names : list string) (self : Settings)
    (key : string) :
  (keys, names) = (NORMAL_SCALE_KEYS, NORMAL_SCALE_NAMES)
  ∨ (keys, names) = (CHURCH_MODES_KEYS, CHURCH_MODES_NAMES) →
  ∃ self',
    scales_keyPressed keys names self key = Ok self'
    ∧ clefs self' = clefs self
    ∧ max_sharps_key_signature self' = max_sharps_key_signature self
    ∧ max_flats_key_signature self' = max_flats_key_signature self
    ∧ max_high_ledger_positions self' = max_high_ledger_positions self
    ∧ max_low_ledger_positions self' = max_low_ledger_positions self
    ∧ (key ∉ keys → self' = self)
    ∧ (key ∈ keys →
       ∃ st, SCALE_TYPE_INFO !! key = Some st ∧ name st ∈ names
         ∧ scale_types self' = toggle (name st) (scale_types self)).
Proof.
  intros Hmenu. unfold scales_keyPressed.
  destruct (decide (key ∈ keys)) as [Hkey|Hkey].
  - destruct (sub_menu_key keys names key Hmenu Hkey) as (st & Hst & Hname).
    rewrite bool_decide_true by done. cbn [negb]. unfold getitem. rewrite Hst.
    cbn [mbind result_bind]. rewrite bool_decide_true by done.
    eexists. split; [done|]. cbn. repeat split; try done.
    intros _. by exists st.
  - rewrite bool_decide_false by done. cbn [negb].
    exists self. repeat split; done.
Qed.

Lemma scales_keyPressed_toggles_witness :
  ∃ self',
    scales_keyPressed CHURCH_MODES_KEYS CHURCH_MODES_NAMES DEFAULT_CONFIG "4" = Ok self'
    ∧ clefs self' = clefs DEFAULT_CONFIG
    ∧ max_sharps_key_signature self' = max_sharps_key_signature DEFAULT_CONFIG
    ∧ max_flats_key_signature self' = max_flats_key_signature DEFAULT_CONFIG
    ∧ max_high_ledger_positions self' = max_high_ledger_positions DEFAULT_CONFIG
    ∧ max_low_ledger_positions self' = max_low_ledger_positions DEFAULT_CONFIG
    ∧ ("4" ∉ CHURCH_MODES_KEYS → self' = DEFAULT_CONFIG)
    ∧ ("4" ∈ CHURCH_MODES_KEYS →
       ∃ st, SCALE_TYPE_INFO !! "4" = Some st ∧ name st ∈ CHURCH_MODES_NAMES
         ∧ scale_types self' = toggle (name st) (scale_types DEFAULT_CONFIG)).
Proof.
  apply (scales_keyPressed_toggles CHURCH_MODES_KEYS CHURCH_MODES_NAMES
           DEFAULT_CONFIG "4").
  right. reflexivity.
Defined.

(** ** useful.py *)

(** X23.  The next letter of any character is a letter A..G.  For a letter
    A..G it is another letter, and the seventh next letter is the letter
    itself. *)
Theorem get_next_letter_cycle (c : ascii) :
  valid_letter (get_next_letter c)
  ∧ (valid_letter c →
     get_next_letter c ≠ c ∧ Nat.iter 7 get_next_letter c = c).
Proof.
  split.
  - unfold valid_letter.
    destruct c as [[] [] [] [] [] [] [] []]; vm_compute; split; discriminate.
  - intros H%valid_letter_cases.
    repeat (apply elem_of_cons in H as [->|H]; [by vm_compute|]).
    by apply elem_of_nil in H.
Qed.



(** X25.  [Menu.resize] at 100 percent leaves a value as it is; at a
    percentage from 0 to 100 a value that is not negative stays between 0
    and itself, and a greater value is never resized to a smaller one. *)
Theorem resize_bounds (size_percent value : Z) :
  resize 100 value = value
  ∧ (0 <= size_percent <= 100 → 0 <= value →
     0 <= resize size_percent value <= value)
  ∧ (0 <= size_percent → ∀ value', value <= value' →
     resize size_percent value <= resize size_percent value').
Proof.
  unfold resize. split; [|split].
  - by rewrite Z.div_mul.
  - intros Hp Hv. split.
    + apply Z.div_pos; [nia|lia].
    + apply Z.div_le_upper_bound; [lia|nia].
  - intros Hp value' Hv. apply Z.div_le_mono; [lia|nia].
Qed.

(** X26.  [choice] raises IndexError on an empty sequence and returns an
    element of the sequence otherwise, whatever the random source yields. *)
Theorem choice_member {A} (pick : nat) (l : list A) :
  (l = [] → choice pick l = Raise IndexError)
  ∧ (l ≠ [] → ∃ x, choice pick l = Ok x ∧ x ∈ l)
  ∧ ∀ x, choice pick l = Ok x → x ∈ l.
Proof.
  split; [by intros ->|]. split; [|apply choice_elem].
  intros Hl. destruct l as [|y l]; [done|]. unfold choice.
  apply index_in_range. split; [lia|].
  apply Nat2Z.inj_lt, Nat.mod_upper_bound. done.
Qed.

(** ** The selected boulder *)

Section boulders_props.
Context {Boulder : Type}.
Variable boulder_x : Boulder → Z.
Variable y_positive : Boulder → bool.
Variable y_gt : Boulder → Boulder → bool.

Lemma boulders_getitem_Ok (l : list (Z * Boulder)) k :
  k ∈ l.*1 → ∃ b, Main.boulders_getitem l k = Ok b.
Proof.
  induction l as [|[k' b'] l IH]; simpl.
  - by intros ?%elem_of_nil.
  - intros [->|Hk]%elem_of_cons.
    + exists b'. by rewrite bool_decide_eq_true_2.
    + case_bool_decide; eauto.
Qed.

Lemma boulders_getitem_key (l : list (Z * Boulder)) k b :
  Main.boulders_getitem l k = Ok b → k ∈ l.*1.
Proof.
  induction l as [|[k' b'] l IH]; simpl; [done|].
  case_bool_decide as Hk.
  - intros _. subst. apply elem_of_cons. by left.
  - intros ?%IH. apply elem_of_cons. by right.
Qed.

Lemma good_keys_loop_Ok (l : list (Z * Boulder)) keys :
  (∀ k, k ∈ keys → k ∈ l.*1) →
  ∃ good_keys, Main.good_keys_loop y_positive l keys = Ok good_keys
    ∧ sublist good_keys keys
    ∧ ∀ k, k ∈ good_keys ↔ k ∈ keys ∧ Main.onscreen y_positive l k.
Proof.
  induction keys as [|key keys IH]; intros Hkeys.
  - exists []. split; [done|]. split; [done|]. intros k. split.
    + by intros ?%elem_of_nil.
    + by intros [?%elem_of_nil _].
  - destruct IH as (good & Hgood & Hsub & Hin).
    { intros k Hk. apply Hkeys, elem_of_cons. by right. }
    destruct (boulders_getitem_Ok l key) as [b Hb].
    { apply Hkeys, elem_of_cons. by left. }
    simpl. rewrite Hb. cbn [mbind result_bind]. rewrite Hgood.
    cbn [mbind result_bind].
    destruct (y_positive b) eqn:Hy.
    + exists (key :: good). split; [done|]. split; [by constructor|].
      intros k. rewrite !elem_of_cons, Hin. split.
      * intros [->|[? ?]]; [|by auto]. split; [by left|]. by exists b.
      * intros [[->|?] ?]; [by left|by right].
    + exists good. split; [done|]. split; [by constructor|].
      intros k. rewrite elem_of_cons, Hin. split.
      * intros [? ?]; by auto.
      * intros [[->|?] Hon]; [|done].
        destruct Hon as (b' & Hb' & Hy'). congruence.
Qed.

Lemma StronglySorted_sublist {A} (R : relation A) (l1 l2 : list A) :
  sublist l1 l2 → StronglySorted R l2 → StronglySorted R l1.
Proof.
  induction 1 as [|x l1 l2 Hsub IH|x l1 l2 Hsub IH];
    rewrite ?StronglySorted_cons; [done|..].
  - intros [Hx Hl]. split; [|by auto].
    rewrite Forall_forall in Hx |- *. intros y Hy. apply Hx.
    by eapply elem_of_sublist.
  - intros [_ Hl]. by auto.
Qed.


(** The boulders of [sorted_onscreen_boulder_keys]: those on screen, in
    increasing order. *)
Lemma sorted_onscreen_boulder_keys_Ok (self : Main.World) :
  ∃ good_keys, Main.sorted_onscreen_boulder_keys y_positive self = Ok good_keys
    ∧ StronglySorted Z.le good_keys
    ∧ ∀ k, k ∈ good_keys ↔ Main.onscreen y_positive (Main.boulders self) k.
Proof.
  unfold Main.sorted_onscreen_boulder_keys.
  destruct (good_keys_loop_Ok (Main.boulders self)
              (merge_sort Z.le (Main.boulders self).*1))
    as (good & Hgood & Hsub & Hin).
  { intros k. by rewrite merge_sort_Permutation. }
  exists good. split; [done|]. split.
  - eapply StronglySorted_sublist; [done|]. apply (StronglySorted_merge_sort _).
  - intros k. rewrite Hin, merge_sort_Permutation. split; [by intros [_ ?]|].
    intros Hon. split; [|done]. destruct Hon as (b & Hb & _).
    by eapply boulders_getitem_key.
Qed.




End boulders_props.



(** The loop of [key_of_max_y_boulder] ends on a boulder that none of the
    list is below, when [>] on the heights is a strict weak order. *)
Lemma max_y_loop {Boulder : Type} (y_gt : Boulder → Boulder → bool)
    (l : list Boulder) (max_y : Boulder) :
  (∀ a b, y_gt a b = true → y_gt b a = false) →
  (∀ a b c, y_gt a c = true → y_gt a b = true ∨ y_gt b c = true) →
  foldl (fun max_y boulder => if y_gt boulder max_y then boulder else max_y) max_y l
    ∈ max_y :: l
  ∧ ∀ b, b ∈ max_y :: l →
      y_gt b (foldl (fun max_y boulder => if y_gt boulder max_y then boulder else max_y)
                max_y l) = false.
Proof.
  intros Hasym Hneg. revert max_y. induction l as [|x l IH]; intros m0.
  - simpl. split; [apply list_elem_of_here|].
    intros b ->%list_elem_of_singleton.
    destruct (y_gt m0 m0) eqn:Hm; [|done]. by rewrite (Hasym _ _ Hm) in Hm.
  - cbn [foldl]. destruct (y_gt x m0) eqn:Hx.
    + destruct (IH x) as [Hin Hmax]. split; [by apply list_elem_of_further|].
      intros b [->|Hb]%elem_of_cons; [|by apply Hmax].
      destruct (y_gt m0 (foldl _ _ _)) eqn:Hm; [|done].
      destruct (Hneg _ x _ Hm) as [H1|H1].
      * by rewrite (Hasym _ _ Hx) in H1.
      * rewrite Hmax in H1; [done|apply list_elem_of_here].
    + destruct (IH m0) as [Hin Hmax]. split.
      { apply elem_of_cons in Hin as [->|Hin]; [apply list_elem_of_here|].
        by do 2 apply list_elem_of_further. }
      intros b [->|[->|Hb]%elem_of_cons]%elem_of_cons.
      * apply Hmax, list_elem_of_here.
      * destruct (y_gt x (foldl _ _ _)) eqn:Hm; [|done].
        destruct (Hneg _ m0 _ Hm) as [H1|H1]; [congruence|].
        rewrite Hmax in H1; [done|apply list_elem_of_here].
      * by apply Hmax, list_elem_of_further.
Qed.

(** X28.  With boulders, but none of them on screen, [select] in either
    direction selects the x-coordinate of a lowest boulder (one that no
    boulder is below), provided that [>] on the heights is a strict weak
    order, as it is on numbers; without boulders it selects 0. *)
Theorem select_lowest {Boulder : Type} (boulder_x : Boulder → Z)
    (y_positive : Boulder → bool) (y_gt : Boulder → Boulder → bool)
    (self : Main.World) (right : bool) :
  (∀ a b, y_gt a b = true → y_gt b a = false) →
  (∀ a b c, y_gt a c = true → y_gt a b = true ∨ y_gt b c = true) →
  (∀ k, ¬ Main.onscreen y_positive (Main.boulders self) k) →
  (Main.boulders self = [] →
   Main.select boulder_x y_positive y_gt self right
   = Ok (Main.mkWorld (Main.boulders self) 0))
  ∧ (Main.boulders self ≠ [] →
     ∃ b, b ∈ (Main.boulders self).*2
       ∧ (∀ b', b' ∈ (Main.boulders self).*2 → y_gt b' b = false)
       ∧ Main.select boulder_x y_positive y_gt self right
         = Ok (Main.mkWorld (Main.boulders self) (boulder_x b))).
Proof.
  intros Hasym Hneg Hnone. split.
  { intros Hl. unfold Main.select. by rewrite Hl. }
  intros Hl.
  destruct (sorted_onscreen_boulder_keys_Ok y_positive self)
    as (good & Hgood & _ & Hin).
  assert (good = []) as ->.
  { destruct good as [|g good]; [done|].
    destruct (Hnone g). apply Hin, list_elem_of_here. }
  unfold Main.select. destruct (Main.boulders self) as [|[k0 b0] l] eqn:Hb; [done|].
  rewrite <-Hb in *. rewrite Hgood. cbn [mbind result_bind].
  assert (index (Main.boulders self).*2 0 = Ok b0) as Hfirst.
  { rewrite Hb, fmap_cons. apply index_first. }
  unfold Main.key_of_max_y_boulder. rewrite Hfirst. cbn [mbind result_bind].
  destruct (max_y_loop y_gt (Main.boulders self).*2 b0 Hasym Hneg) as [Hmem Hmax].
  assert (∀ b, b ∈ b0 :: (Main.boulders self).*2 ↔ b ∈ (Main.boulders self).*2) as Hsame.
  { intros b. rewrite elem_of_cons. split; [|by right].
    intros [->|?]; [|done]. rewrite Hb, fmap_cons. apply list_elem_of_here. }
  eexists. split; [by apply Hsame|]. split; [|done].
  intros b' Hb'. by apply Hmax, Hsame.
Qed.

Lemma select_lowest_witness :
  (Main.boulders (Main.mkWorld [(300, (300, -5)); (100, (100, -3)); (200, (200, -7))] 300)
   = [] →
   Main.select fst (λ b : Z * Z, 0 <? b.2) (λ a b : Z * Z, b.2 <? a.2)
     (Main.mkWorld [(300, (300, -5)); (100, (100, -3)); (200, (200, -7))] 300) true
   = Ok (Main.mkWorld
           (Main.boulders
              (Main.mkWorld [(300, (300, -5)); (100, (100, -3)); (200, (200, -7))] 300))
           0))
  ∧ (Main.boulders (Main.mkWorld [(300, (300, -5)); (100, (100, -3)); (200, (200, -7))] 300)
     ≠ [] →
     ∃ b, b ∈ (Main.boulders
                 (Main.mkWorld [(300, (300, -5)); (100, (100, -3)); (200, (200, -7))]
                    300)).*2
       ∧ (∀ b', b' ∈ (Main.boulders
                        (Main.mkWorld
                           [(300, (300, -5)); (100, (100, -3)); (200, (200, -7))]
                           300)).*2 →
                (b.2 <? b'.2) = false)
       ∧ Main.select fst (λ b : Z * Z, 0 <? b.2) (λ a b : Z * Z, b.2 <? a.2)
           (Main.mkWorld [(300, (300, -5)); (100, (100, -3)); (200, (200, -7))] 300) true
         = Ok (Main.mkWorld
                 (Main.boulders
                    (Main.mkWorld [(300, (300, -5)); (100, (100, -3)); (200, (200, -7))]
                       300))
                 (fst b))).
Proof.
  apply (select_lowest fst (λ b : Z * Z, 0 <? b.2) (λ a b : Z * Z, b.2 <? a.2)
           (Main.mkWorld [(300, (300, -5)); (100, (100, -3)); (200, (200, -7))] 300) true).
  - intros a b. rewrite Z.ltb_lt, Z.ltb_ge. lia.
  - intros a b c. rewrite !Z.ltb_lt. lia.
  - intros k (b & Hb & Hy). simpl in Hb.
    repeat (case_bool_decide; [injection Hb as <-; discriminate Hy|]).
    discriminate Hb.
Defined.
